(** * abstractions.py: the telecom optimisation pipeline

    A shallow embedding of [src/abstractions.py] and the properties of its
    analysis stages.

    Conventions of the embedding.
    - A Python [float] is an exact rational ([Q]); rounding, overflow and
      NaN are outside the model.  [float('inf')] is a constructor of its
      own ([PInf]) where the code produces it.
    - A Python [int] is a [Z].
    - A raised exception is the [Err] case of [result].
    - A [dict] whose iteration order is observed is an association list in
      insertion order; a [dict] used as a plain map is a [gmap].
    - The proposal dictionaries of [ConsensusRPCScheme] are mutable objects
      that several maps may reference: they live in an object store and
      the maps hold references into it. *)

From Stdlib Require Import ZArith QArith Qround Lqa Lia.
From stdpp Require Import base option list gmap strings.

Local Open Scope Z_scope.

(** ** Exceptions *)

Inductive exn := ZeroDivisionError | KeyError | ValueError | RecursionError.

Inductive result (A : Type) := Ok (a : A) | Err (e : exn).
Arguments Ok {A} a.
Arguments Err {A} e.

#[global] Instance result_ret : MRet result := λ A a, Ok a.
#[global] Instance result_bind : MBind result := λ A B k m,
  match m with Ok a => k a | Err e => Err e end.

(** ** Python values that travel as opaque payloads *)

#[warnings="-register-all"]
Inductive value :=
| VNone
| VBool (b : bool)
| VInt (z : Z)
| VStr (s : string)
| VDict (kvs : list (string * value)).

(** ** Insertion-ordered dictionaries with string keys *)

Fixpoint dict_get {V} (k : string) (d : list (string * V)) : option V :=
  match d with
  | [] => None
  | (k', v) :: rest => if String.eqb k k' then Some v else dict_get k rest
  end.

(** [d[k] = v]: an existing key keeps its place, a new key goes last. *)
Fixpoint dict_set {V} (k : string) (v : V) (d : list (string * V))
  : list (string * V) :=
  match d with
  | [] => [(k, v)]
  | (k', v') :: rest =>
      if String.eqb k k' then (k, v) :: rest else (k', v') :: dict_set k v rest
  end.

Definition dict_keys {V} (d : list (string * V)) : list string := d.*1.

(** [d[k]] as an expression. *)
Definition dict_item {V} (k : string) (d : list (string * V)) : result V :=
  match dict_get k d with Some v => Ok v | None => Err KeyError end.

(** ** Floats *)

(** [x / y] on floats raises on a zero divisor. *)
Definition fdiv (x y : Q) : result Q :=
  if Qeq_bool y 0 then Err ZeroDivisionError else Ok (x / y)%Q.

(** [x > y]. *)
Definition Qgt_bool (x y : Q) : bool := negb (Qle_bool x y).

(** A float that may be [float('inf')]. *)
Inductive xfloat := Finite (q : Q) | PInf.

Definition xgt (a b : xfloat) : bool :=
  match a, b with
  | Finite x, Finite y => Qgt_bool x y
  | PInf, Finite _ => true
  | _, PInf => false
  end.

(** [max(iterable, key=...)]: the first item is kept until a later one has
    a strictly greater key; an empty iterable raises. *)
Definition py_max {A} (key : A → xfloat) (l : list A) : result A :=
  match l with
  | [] => Err ValueError
  | x :: xs => Ok (fold_left (λ m y, if xgt (key y) (key m) then y else m) xs x)
  end.

(** ** Part (b): [ConsensusRPCScheme] *)

Module Proposal.
(** The dictionary [{'timestamp', 'data', 'promises', 'accepts'}] built by
    [prepare]. *)
Record t := mk { timestamp : Z; data : value; promises : Z; accepts : Z }.

Definition add_promise (p : t) : t :=
  mk (timestamp p) (data p) (promises p + 1) (accepts p).

Definition set_accepts (p : t) : t :=
  mk (timestamp p) (data p) (promises p) (promises p).

(** The dictionary as the caller of [learn] sees it. *)
Definition as_value (p : t) : value :=
  VDict [("timestamp"%string, VInt (timestamp p));
         ("data"%string, data p);
         ("promises"%string, VInt (promises p));
         ("accepts"%string, VInt (accepts p))].
End Proposal.

Module Consensus.

(** A reference to a proposal dictionary. *)
Abbreviation loc := nat.

Record ConsensusRPCScheme := mk {
  dominant_component : string;
  quorum_size : Z;
  proposals : gmap string loc;
  promises : gmap string value;      (* created empty, never touched *)
  accepted : gmap string loc;
  current_timestamp : Z;
  objects : list Proposal.t          (* the proposal dictionaries *)
}.

Definition init (dominant : string) (quorum : Z) : ConsensusRPCScheme :=
  mk dominant quorum ∅ ∅ ∅ 0 [].

Definition prepare (s : ConsensusRPCScheme) (request_id : string) (d : value)
  : bool * ConsensusRPCScheme :=
  let ts := current_timestamp s + 1 in
  let l := length (objects s) in
  (true,
   mk (dominant_component s) (quorum_size s)
      (<[request_id := l]> (proposals s)) (promises s) (accepted s) ts
      (objects s ++ [Proposal.mk ts d 0 0])).

Definition set_objects (s : ConsensusRPCScheme) (o : list Proposal.t) :=
  mk (dominant_component s) (quorum_size s) (proposals s) (promises s)
     (accepted s) (current_timestamp s) o.

(** The text between the signature and the first statement of [promise]
    in the source is what is left of its docstring.  [node_id] is never
    read. *)
Definition promise (s : ConsensusRPCScheme) (request_id node_id : string)
           (last_timestamp : Z) : bool * ConsensusRPCScheme :=
  match proposals s !! request_id with
  | None => (false, s)
  | Some l =>
      match objects s !! l with
      | None => (false, s)             (* no dangling reference exists *)
      | Some p =>
          if last_timestamp <? Proposal.timestamp p
          then (true, set_objects s (<[l := Proposal.add_promise p]> (objects s)))
          else (false, s)
      end
  end.

Definition accept (s : ConsensusRPCScheme) (request_id : string)
  : bool * ConsensusRPCScheme :=
  match proposals s !! request_id with
  | None => (false, s)
  | Some l =>
      match objects s !! l with
      | None => (false, s)
      | Some p =>
          if quorum_size s <=? Proposal.promises p
          then (true,
                mk (dominant_component s) (quorum_size s) (proposals s)
                   (promises s) (<[request_id := l]> (accepted s))
                   (current_timestamp s)
                   (<[l := Proposal.set_accepts p]> (objects s)))
          else (false, s)
      end
  end.

(** [self.accepted.get(request_id)]: the stored object itself. *)
Definition learn (s : ConsensusRPCScheme) (request_id : string) : option value :=
  l ← accepted s !! request_id;
  p ← objects s !! l;
  Some (Proposal.as_value p).

Definition is_consensus_valid (s : ConsensusRPCScheme)
           (latency_dominance_holds : bool) : bool :=
  latency_dominance_holds.

(** The accepted record a request refers to, when there is one. *)
Definition accepted_record (s : ConsensusRPCScheme) (r : string)
  : option Proposal.t :=
  l ← accepted s !! r; objects s !! l.

Definition proposal_record (s : ConsensusRPCScheme) (r : string)
  : option Proposal.t :=
  l ← proposals s !! r; objects s !! l.

(** What the specification words [learn] as: the payload alone. *)
Definition learn_payload_only (s : ConsensusRPCScheme) (r : string)
  : option value :=
  Proposal.data <$> accepted_record s r.

(** *** Sequences of calls *)

Inductive call :=
| Prepare (request_id : string) (d : value)
| Promise (request_id node_id : string) (last_timestamp : Z)
| Accept (request_id : string).

Definition step (s : ConsensusRPCScheme) (c : call) : bool * ConsensusRPCScheme :=
  match c with
  | Prepare r d => prepare s r d
  | Promise r n t => promise s r n t
  | Accept r => accept s r
  end.

(** The state after the calls, and the log of calls with their results. *)
Fixpoint run (s : ConsensusRPCScheme) (cs : list call)
  : list (call * bool) * ConsensusRPCScheme :=
  match cs with
  | [] => ([], s)
  | c :: cs' =>
      let '(b, s1) := step s c in
      let '(log, s2) := run s1 cs' in
      ((c, b) :: log, s2)
  end.

End Consensus.

(** ** Components *)

Inductive FaultType :=
| RETRY | DRIFT | BACKPRESSURE | NODE_PARTITION | LIVELOCK | CRASH | TIMEOUT
| REPLAY.

Record Component := mkComponent {
  name : string;
  cpu_percent : Q;
  memory_gb : Q;
  latency_ms : Q;
  throughput_mbps : Q;
  reliability_percent : Q;
  requests_per_sec : Z;
  dependency : option string;
  fault_events : list FaultType
}.

(** [if comp.dependency]: [None] and the empty string are both false. *)
Definition dependency_of (c : Component) : option string :=
  match dependency c with
  | Some d => if String.eqb d "" then None else Some d
  | None => None
  end.

(** ** Part (a): [DominantLatencyAnalyzer] *)

Module Dominance.

Record DominantLatencyAnalyzer := mk {
  components : list (string * Component);
  dependency_chain : list (string * list string)
}.

(** [{c.name: c for c in components}] *)
Definition registry (cs : list Component) : list (string * Component) :=
  fold_left (λ d c, dict_set (name c) c d) cs [].

Definition add_dependent (chain : result (list (string * list string)))
           (item : string * Component) : result (list (string * list string)) :=
  ch ← chain;
  match dependency_of item.2 with
  | Some d => kids ← dict_item d ch; Ok (dict_set d (kids ++ [item.1]) ch)
  | None => Ok ch
  end.

Definition _build_dependency_chain (comps : list (string * Component))
  : result (list (string * list string)) :=
  fold_left add_dependent comps (Ok ((λ kv, (kv.1, [])) <$> comps)).

Definition init (cs : list Component) : result DominantLatencyAnalyzer :=
  let comps := registry cs in
  chain ← _build_dependency_chain comps;
  Ok (mk comps chain).

(** The recursion depth Python allows is the fuel; running out of it is
    [RecursionError]. *)
Fixpoint calculate_cumulative_latency (fuel : nat) (a : DominantLatencyAnalyzer)
         (component_name : string) : result Q :=
  match fuel with
  | O => Err RecursionError
  | S fuel' =>
      comp ← dict_item component_name (components a);
      match dependency_of comp with
      | None => Ok (latency_ms comp)
      | Some d =>
          up ← calculate_cumulative_latency fuel' a d;
          Ok (latency_ms comp + up)%Q
      end
  end.

Fixpoint calculate_downstream_throughput (fuel : nat)
         (a : DominantLatencyAnalyzer) (component_name : string) : result Q :=
  match fuel with
  | O => Err RecursionError
  | S fuel' =>
      comp ← dict_item component_name (components a);
      kids ← dict_item component_name (dependency_chain a);
      fold_left
        (λ total dependent,
           t ← total;
           v ← calculate_downstream_throughput fuel' a dependent;
           Ok (t + v)%Q)
        kids (Ok (throughput_mbps comp))
  end.

Record Metrics := mkMetrics {
  latency : Q;
  cumulative_latency : Q;
  downstream_throughput : Q;
  latency_throughput_ratio : xfloat
}.

Definition ratio_of (latency downstream : Q) : result xfloat :=
  if Qgt_bool downstream 0
  then q ← fdiv latency downstream; Ok (Finite q)
  else Ok PInf.

Definition metrics_of (fuel : nat) (a : DominantLatencyAnalyzer)
           (n : string) : result Metrics :=
  comp ← dict_item n (components a);
  let latency := latency_ms comp in
  downstream ← calculate_downstream_throughput fuel a n;
  ratio ← ratio_of latency downstream;
  cumul ← calculate_cumulative_latency fuel a n;
  Ok (mkMetrics latency cumul downstream ratio).

Fixpoint collect_metrics (fuel : nat) (a : DominantLatencyAnalyzer)
         (names : list string) (metrics : list (string * Metrics))
  : result (list (string * Metrics)) :=
  match names with
  | [] => Ok metrics
  | n :: rest =>
      m ← metrics_of fuel a n;
      collect_metrics fuel a rest (dict_set n m metrics)
  end.

Definition identify_dominant_source (fuel : nat) (a : DominantLatencyAnalyzer)
  : result (string * list (string * Metrics)) :=
  metrics ← collect_metrics fuel a (dict_keys (components a)) [];
  dominant ← py_max (λ x, latency_throughput_ratio x.2) metrics;
  Ok (dominant.1, metrics).

End Dominance.

(** ** Part (c): [ContentionModel] *)

Module Contention.

Record ContentionModel := mk {
  component : Component;
  quorum_size : Z;
  invariants_valid : bool
}.

Definition init (c : Component) (quorum : Z) : ContentionModel :=
  mk c quorum true.

Definition calculate_contention (m : ContentionModel) : result Q :=
  fdiv (inject_Z (requests_per_sec (component m)) * latency_ms (component m))%Q
       (inject_Z (1000 * quorum_size m)).

Definition check_invariants (m : ContentionModel) (is_latency_dominant : bool)
           (quorum_available : Q) : bool * ContentionModel :=
  let i1 := is_latency_dominant in
  let i2 := Qle_bool 94.7 (reliability_percent (component m)) in
  let i3 := Qle_bool (2 / 3) quorum_available in
  let v := i1 && i2 && i3 in
  (v, mk (component m) (quorum_size m) v).

Definition is_feasible (m : ContentionModel) : bool := invariants_valid m.

End Contention.

(** ** Parts (d) and (e): the optimizers *)

Section Optimizers.

(** Python's [**] on floats is the platform's [pow], which is not part of
    the repository: it is a parameter.  (For a negative base and a
    fractional exponent Python leaves the floats; the model does not.) *)
Variable pow : Q → Q → Q.

Local Open Scope Q_scope.

Record LatencyElasticityOptimizer := mkElasticity {
  base_latency : Q;
  alpha : Q;
  beta : Q
}.

(** [LatencyElasticityOptimizer(base_latency)] with the default
    coefficients. *)
Definition default_elasticity (base : Q) : LatencyElasticityOptimizer :=
  mkElasticity base 0.2 1.5.

Definition effective_latency (o : LatencyElasticityOptimizer) (contention : Q) : Q :=
  base_latency o * (1 + alpha o * pow contention (beta o)).

Definition optimal_contention (o : LatencyElasticityOptimizer) : result Q :=
  if Qle_bool (beta o) 1 then Ok 0
  else
    b ← fdiv (beta o) (alpha o * (beta o - 1));
    e ← fdiv 1 (beta o);
    Ok (pow b e).

Record ThroughputOptimizer := mkThroughput {
  component : Component;
  request_size_gb : Q;
  divergence_limit : Q;
  elasticity_optimizer : LatencyElasticityOptimizer
}.

Definition throughput_optimizer (c : Component) (request_size limit : Q) :=
  mkThroughput c request_size limit (default_elasticity (latency_ms c)).

(** [ThroughputOptimizer(component)] *)
Definition default_throughput_optimizer (c : Component) :=
  throughput_optimizer c 0.05 0.15.

Definition memory_divergence (t : ThroughputOptimizer) (contention : Q) : Q :=
  let l_eff := effective_latency (elasticity_optimizer t) contention in
  let queued_memory := (request_size_gb t * contention * l_eff) / 1000 in
  memory_gb (component t) + queued_memory.

Definition max_memory_allowed (t : ThroughputOptimizer) : Q :=
  memory_gb (component t) * (1 + divergence_limit t).

(** [[i * 0.1 for i in range(1, 100)]] *)
Definition grid : list Q := (λ i, inject_Z i * 0.1) <$> seqZ 1 99.

(** One turn of the search loop on [(best_contention, best_throughput)]. *)
Definition search_step (t : ThroughputOptimizer) (max_mem : Q)
           (best : result (Q * Q)) (c : Q) : result (Q * Q) :=
  b ← best;
  let mem := memory_divergence t c in
  if Qle_bool mem max_mem then
    slack ← fdiv max_mem mem;
    let throughput := throughput_mbps (component t) * slack in
    if Qgt_bool throughput b.2 then Ok (c, throughput) else Ok b
  else Ok b.

Record Optimum := mkOptimum {
  opt_optimal_contention : Q;
  opt_optimized_throughput : Q;
  opt_current_throughput : Q;
  opt_improvement_percent : Q;
  opt_memory_used : Q;
  opt_memory_max : Q
}.

Definition optimize_throughput (t : ThroughputOptimizer) : result Optimum :=
  let max_mem := max_memory_allowed t in
  best ← fold_left (search_step t max_mem) grid (Ok (0, 0));
  let '(best_contention, best_throughput) := best in
  gain ← fdiv (best_throughput - throughput_mbps (component t))
              (throughput_mbps (component t));
  Ok (mkOptimum best_contention best_throughput
                (throughput_mbps (component t)) (gain * 100)
                (memory_divergence t best_contention) max_mem).

End Optimizers.

(** ** [analyze_tradeoffs] *)

Record Tradeoff := mkTradeoff {
  tr_effective_latency : Q;
  tr_relative_throughput : Q;
  tr_latency_increase_factor : Q
}.

(** [d[k] = v] on a dictionary with float keys: an equal key keeps its
    place (and stays the key), a new key goes last. *)
Fixpoint fdict_set {V} (k : Q) (v : V) (d : list (Q * V)) : list (Q * V) :=
  match d with
  | [] => [(k, v)]
  | (k', v') :: rest =>
      if Qeq_bool k k' then (k', v) :: rest else (k', v') :: fdict_set k v rest
  end.

Section Tradeoffs.
Variable pow : Q → Q → Q.

Definition tradeoff_step (o : LatencyElasticityOptimizer)
           (tradeoffs : result (list (Q * Tradeoff))) (c : Q)
  : result (list (Q * Tradeoff)) :=
  d ← tradeoffs;
  let l_eff := effective_latency pow o c in
  relative_throughput ← fdiv (base_latency o) l_eff;
  factor ← fdiv l_eff (base_latency o);
  Ok (fdict_set c (mkTradeoff l_eff relative_throughput factor) d).

Definition analyze_tradeoffs (o : LatencyElasticityOptimizer)
           (contention_range : list Q) : result (list (Q * Tradeoff)) :=
  fold_left (tradeoff_step o) contention_range (Ok []).

(** What an entry of the result is: the record computed for a contention
    of the range equal to the key. *)
Definition entry_of (o : LatencyElasticityOptimizer) (range : list Q)
           (kv : Q * Tradeoff) : Prop :=
  ∃ c, c ∈ range ∧ (c == kv.1)%Q ∧
       ¬ (effective_latency pow o c == 0)%Q ∧ ¬ (base_latency o == 0)%Q ∧
       kv.2 = mkTradeoff (effective_latency pow o c)
                (base_latency o / effective_latency pow o c)%Q
                (effective_latency pow o c / base_latency o)%Q.

End Tradeoffs.

(** ** Vocabulary of the statements *)

Module ConsensusInv.
Import Consensus.

(** Request [r] refers to the object at [l], as a proposal or as an
    accepted entry. *)
Definition refs (s : ConsensusRPCScheme) (r : string) (l : loc) : Prop :=
  proposals s !! r = Some l ∨ accepted s !! r = Some l.

(** No reference dangles, and an object is referred to by one request
    only. *)
Definition wf (s : ConsensusRPCScheme) : Prop :=
  (∀ r l, refs s r l → (l < length (objects s))%nat) ∧
  (∀ r1 r2 l, refs s r1 l → refs s r2 l → r1 = r2).

(** The object at [l] is reachable from request [r] at most. *)
Definition owned (s : ConsensusRPCScheme) (r : string) (l : loc) : Prop :=
  ∀ r', refs s r' l → r' = r.

(** A call that can write to the proposal of [r]. *)
Definition touches (r : string) (c : call) : bool :=
  match c with
  | Prepare _ _ => false
  | Promise r' _ _ => String.eqb r r'
  | Accept r' => String.eqb r r'
  end.

(** Every payload reachable from a request satisfies [P]. *)
Definition tracked (P : string → value → Prop) (s : ConsensusRPCScheme) : Prop :=
  ∀ r l p, refs s r l → objects s !! l = Some p → P r (Proposal.data p).

(** The scenario of the orchestrator: one proposal, two promises, accept. *)
Definition demo_calls : list call :=
  [Prepare "req_001" (VDict [("payload"%string, VStr "test")]);
   Promise "req_001" "node1" 0;
   Promise "req_001" "node2" 0;
   Accept "req_001"].

Definition demo : ConsensusRPCScheme := (run (init "CloudInference" 2) demo_calls).2.
End ConsensusInv.

(** The components of the reference run. *)
Definition AuthCore : Component :=
  mkComponent "AuthCore" 47 2.4 21 520 97.6 165 None [RETRY; DRIFT].
Definition QueueRelay : Component :=
  mkComponent "QueueRelay" 63 3.1 27 430 96.8 118 (Some "AuthCore"%string)
              [BACKPRESSURE].
Definition EdgeOrchestrator : Component :=
  mkComponent "EdgeOrchestrator" 58 4.6 31 610 96.9 190 (Some "QueueRelay"%string)
              [NODE_PARTITION].
Definition WebGateway : Component :=
  mkComponent "WebGateway" 52 3.7 38 690 94.7 215 (Some "EdgeOrchestrator"%string)
              [LIVELOCK].
Definition CloudInference : Component :=
  mkComponent "CloudInference" 74 9.3 44 1150 92.4 275 (Some "WebGateway"%string)
              [CRASH; TIMEOUT; REPLAY].

Definition reference_components : list Component :=
  [AuthCore; QueueRelay; EdgeOrchestrator; WebGateway; CloudInference].

(** A component that carries no traffic. *)
Definition Idle : Component :=
  mkComponent "Idle" 50 2 10 0 99 100 None [].

(** A computable stand-in for [pow] on examples: the exponent is truncated
    to an integer. *)
Definition pow_floor (b e : Q) : Q := Qpower b (Qfloor e).

(** What the search needs of [pow] at the default exponent: on positive
    bases it is not negative and does not decrease. *)
Definition pow_monotone (pow : Q → Q → Q) : Prop :=
  (∀ x, (0 < x → 0 <= pow x 1.5)%Q) ∧
  (∀ x y, (0 < x → x <= y → pow x 1.5 <= pow y 1.5)%Q).

Module DominanceInv.
Import Dominance.

(** [depth] ranks every component strictly above its dependency: the
    dependency pointers form a forest. *)
Definition ranked (a : DominantLatencyAnalyzer) (depth : string → nat) : Prop :=
  ∀ n c d, dict_get n (components a) = Some c → dependency_of c = Some d →
           (depth d < depth n)%nat.

Definition acyclic (a : DominantLatencyAnalyzer) : Prop :=
  ∃ depth, ranked a depth.

Definition nonnegative_throughput (a : DominantLatencyAnalyzer) : Prop :=
  ∀ n c, dict_get n (components a) = Some c → (0 <= throughput_mbps c)%Q.

(** The children lists hold exactly registered components that name the
    key as their dependency, and every dependency is registered. *)
Definition chain_ok (comps : list (string * Component))
           (chain : list (string * list string)) : Prop :=
  dict_keys chain = dict_keys comps ∧
  (∀ n kids k, dict_get n chain = Some kids → k ∈ kids →
     ∃ c, (k, c) ∈ comps ∧ dependency_of c = Some n) ∧
  (∀ n c d, (n, c) ∈ comps → dependency_of c = Some d → d ∈ dict_keys comps).

(** [m] is the first item of [l] with the greatest key. *)
Definition first_max {A} (key : A → xfloat) (l : list A) (m : A) : Prop :=
  ∃ l1 l2, l = l1 ++ m :: l2 ∧
           (∀ y, y ∈ l1 → xgt (key m) (key y) = true) ∧
           (∀ y, y ∈ l2 → xgt (key y) (key m) = false).

(** The ratio as the specification words it: infinite at exactly 0. *)
Definition ratio_as_specified (latency downstream : Q) : xfloat :=
  if Qeq_bool downstream 0 then PInf else Finite (latency / downstream).

(** The ratio the code computes. *)
Definition ratio_computed (latency downstream : Q) : xfloat :=
  if Qgt_bool downstream 0 then Finite (latency / downstream) else PInf.

(** A registry with a component of negative throughput. *)
Definition Drain : Component := mkComponent "Drain" 10 1 10 (-5) 99 10 None [].
Definition Feed : Component := mkComponent "Feed" 10 1 1 100 99 10 None [].
Definition Sink : Component :=
  mkComponent "Sink" 10 1 1 (-5) 99 10 (Some "Feed"%string) [].

Definition reference_depth (n : string) : nat :=
  if String.eqb n "AuthCore" then 0
  else if String.eqb n "QueueRelay" then 1
  else if String.eqb n "EdgeOrchestrator" then 2
  else if String.eqb n "WebGateway" then 3
  else 4.
End DominanceInv.

Module DominanceExamples.
Import Dominance DominanceInv.

(** What [init] yields, or an empty analyzer where it raises. *)
Definition analyzer_of (cs : list Component) : DominantLatencyAnalyzer :=
  match init cs with Ok a => a | Err _ => mk [] [] end.

Definition reference_analyzer : DominantLatencyAnalyzer :=
  analyzer_of reference_components.

(** [Sink] hangs below [Feed] and has a negative throughput. *)
Definition leaking_analyzer : DominantLatencyAnalyzer :=
  analyzer_of [Feed; Sink].

(** A negative throughput next to an ordinary component. *)
Definition draining_analyzer : DominantLatencyAnalyzer :=
  analyzer_of [Feed; Drain].
End DominanceExamples.

(** Case analysis on the key of a lookup in a literal dictionary. *)
Ltac by_cases_on_key H :=
  cbn in H;
  repeat match type of H with
         | (if String.eqb ?n ?s then _ else _) = _ =>
             destruct (String.eqb_spec n s) as [->|?]
         end.

(** ** Further vocabulary: the agreement simulator *)

Module ConsensusMore.
Import Consensus ConsensusInv.

Definition is_prepare (c : call) : bool :=
  match c with Prepare _ _ => true | _ => false end.

Definition prepares (r : string) (c : call) : bool :=
  match c with Prepare r' _ => String.eqb r r' | _ => false end.

(** The counter equals the number of proposal objects ever created, and
    the object created by the [i]-th [prepare] carries timestamp [i]. *)
Definition stamped (s : ConsensusRPCScheme) : Prop :=
  current_timestamp s = Z.of_nat (length (objects s)) ∧
  ∀ i p, objects s !! i = Some p → Proposal.timestamp p = Z.of_nat i + 1.

(** Counts are in order on every object, and an accepted object has
    reached the quorum. *)
Definition counted (s : ConsensusRPCScheme) : Prop :=
  (∀ l p, objects s !! l = Some p →
     0 ≤ Proposal.accepts p ≤ Proposal.promises p) ∧
  (∀ r l p, accepted s !! r = Some l → objects s !! l = Some p →
     quorum_size s ≤ Proposal.accepts p).

End ConsensusMore.

(** ** Further vocabulary: the dominance analyzer *)

Module DominanceMore.
Import Dominance DominanceInv.

(** The registered components that name [n] as their dependency, in
    registry order. *)
Definition children_of (n : string) (comps : list (string * Component))
  : list string :=
  (filter (λ kv, dependency_of kv.2 = Some n) comps).*1.

(** Every dependency names a registered component. *)
Definition dependencies_registered (comps : list (string * Component)) : Prop :=
  ∀ n c d, (n, c) ∈ comps → dependency_of c = Some d → d ∈ dict_keys comps.

(** [S] holds components that all have a registered dependency in [S]
    again: following the dependencies from a member never reaches a root. *)
Definition rootless (a : DominantLatencyAnalyzer) (S : string → Prop) : Prop :=
  ∀ n, S n → ∃ c d, dict_get n (components a) = Some c ∧
                     dependency_of c = Some d ∧ S d.

Definition nonnegative_latency (a : DominantLatencyAnalyzer) : Prop :=
  ∀ n c, dict_get n (components a) = Some c → (0 <= latency_ms c)%Q.

(** Two components that depend on each other. *)
Definition Ping : Component :=
  mkComponent "Ping" 10 1 5 100 99 10 (Some "Pong"%string) [].
Definition Pong : Component :=
  mkComponent "Pong" 10 1 7 200 99 10 (Some "Ping"%string) [].

(** A component whose dependency is not in the list. *)
Definition Orphan : Component :=
  mkComponent "Orphan" 10 1 5 100 99 10 (Some "Nowhere"%string) [].

End DominanceMore.

(** ** [IntegratedSystemOptimizer] *)

Module Orchestrator.

(** What ends a run that does not return: one of the exceptions above, or
    the [StopIteration] of [next]. *)
Inductive raised := Raised (e : exn) | StopIteration.

(** The [results] dictionary: one optional entry per key the run sets. *)
Record Results := mkResults {
  res_dominant_component : option string;
  res_latency_metrics : option (list (string * Dominance.Metrics));
  res_consensus_scheme : option Consensus.ConsensusRPCScheme;
  res_contention : option Q;
  res_optimal_contention_theoretical : option Q;
  res_throughput_optimization : option Optimum
}.

Record IntegratedSystemOptimizer := mk {
  components : list Component;
  results : Results
}.

Definition init (cs : list Component) : IntegratedSystemOptimizer :=
  mk cs (mkResults None None None None None None).

Inductive outcome := Returned (r : Results) | Failed (e : raised).

Section Run.
Variable pow : Q → Q → Q.
Variable fuel : nat.

(** The run, without its printing and without the invariant check of part
    (c), whose result is only printed.  The entries are written one by
    one, so a run that raises leaves the entries written so far; the
    simulator entry is the object itself, seen here after the four calls
    made on it. *)
Definition run_full_optimization (o : IntegratedSystemOptimizer)
  : IntegratedSystemOptimizer * outcome :=
  match Dominance.init (components o) with
  | Err e => (o, Failed (Raised e))
  | Ok analyzer =>
  match Dominance.identify_dominant_source fuel analyzer with
  | Err e => (o, Failed (Raised e))
  | Ok (dominant, metrics) =>
  let consensus :=
    (Consensus.run (Consensus.init dominant 2) ConsensusInv.demo_calls).2 in
  let r2 :=
    mkResults (Some dominant) (Some metrics) (Some consensus)
              (res_contention (results o))
              (res_optimal_contention_theoretical (results o))
              (res_throughput_optimization (results o)) in
  match find (λ c, String.eqb (name c) dominant) (components o) with
  | None => (mk (components o) r2, Failed StopIteration)
  | Some dominant_comp =>
  match Contention.calculate_contention (Contention.init dominant_comp 2) with
  | Err e => (mk (components o) r2, Failed (Raised e))
  | Ok contention =>
  let r3 :=
    mkResults (Some dominant) (Some metrics) (Some consensus) (Some contention)
              (res_optimal_contention_theoretical (results o))
              (res_throughput_optimization (results o)) in
  match optimal_contention pow (default_elasticity (latency_ms dominant_comp)) with
  | Err e => (mk (components o) r3, Failed (Raised e))
  | Ok optimal_c =>
  let r4 :=
    mkResults (Some dominant) (Some metrics) (Some consensus) (Some contention)
              (Some optimal_c) (res_throughput_optimization (results o)) in
  match optimize_throughput pow (default_throughput_optimizer dominant_comp) with
  | Err e => (mk (components o) r4, Failed (Raised e))
  | Ok opt_results =>
  let r5 :=
    mkResults (Some dominant) (Some metrics) (Some consensus) (Some contention)
              (Some optimal_c) (Some opt_results) in
  (mk (components o) r5, Returned r5)
  end end end end end end.

(** The results after parts (a) to (d) and after part (e). *)
Definition results_d (dominant : string) metrics (dc : Component) : Results :=
  mkResults (Some dominant) (Some metrics)
    (Some (Consensus.run (Consensus.init dominant 2) ConsensusInv.demo_calls).2)
    (Some (inject_Z (requests_per_sec dc) * latency_ms dc / inject_Z (1000 * 2))%Q)
    (Some (pow (1.5 / (0.2 * (1.5 - 1))) (1 / 1.5))%Q)
    None.

Definition results_e (dominant : string) metrics (dc : Component) opt : Results :=
  mkResults (Some dominant) (Some metrics)
    (Some (Consensus.run (Consensus.init dominant 2) ConsensusInv.demo_calls).2)
    (Some (inject_Z (requests_per_sec dc) * latency_ms dc / inject_Z (1000 * 2))%Q)
    (Some (pow (1.5 / (0.2 * (1.5 - 1))) (1 / 1.5))%Q)
    (Some opt).

End Run.

Definition validate_assumption_chain (o : IntegratedSystemOptimizer) : bool :=
  match res_dominant_component (results o) with
  | None => false
  | Some dominant =>
      match res_consensus_scheme (results o) with
      | None => false
      | Some consensus =>
          if negb (String.eqb (Consensus.dominant_component consensus) dominant)
          then false
          else match res_contention (results o) with
               | None => false
               | Some _ => true
               end
      end
  end.

End Orchestrator.

(** * Properties *)

(** ** The agreement simulator *)

Module ConsensusFacts.
Import Consensus ConsensusInv.

Lemma init_wf dominant quorum : wf (init dominant quorum).
Proof.
  split; intros *; unfold refs; cbn; rewrite !lookup_empty; intuition congruence.
Qed.

Lemma step_length s c :
  (length (objects s) ≤ length (objects (step s c).2))%nat.
Proof.
  destruct c as [r d|r n t|r]; cbn.
  - rewrite length_app; cbn; lia.
  - unfold promise. repeat case_match; cbn; rewrite ?length_insert; lia.
  - unfold accept. repeat case_match; cbn; rewrite ?length_insert; lia.
Qed.

(** A reference after a call either existed before or is the fresh object
    of a [prepare]. *)
Lemma step_refs s c r l :
  refs (step s c).2 r l →
  refs s r l ∨ ∃ d, c = Prepare r d ∧ l = length (objects s).
Proof.
  unfold refs. destruct c as [r0 d|r0 n t|r0]; cbn.
  - intros [H|H]; [|by left; right].
    destruct (decide (r0 = r)) as [->|Hne].
    + rewrite lookup_insert_eq in H. injection H as <-. right. by exists d.
    + rewrite lookup_insert_ne in H by done. by left; left.
  - unfold promise. repeat case_match; cbn; tauto.
  - unfold accept. repeat case_match; cbn; try tauto.
    intros [Hr|Hr]; [by left; left|].
    destruct (decide (r0 = r)) as [->|Hne].
    + rewrite lookup_insert_eq in Hr. injection Hr as <-. by left; left.
    + rewrite lookup_insert_ne in Hr by done. by left; right.
Qed.

Lemma step_wf s c : wf s → wf (step s c).2.
Proof.
  intros [Hb Hu]. split.
  - intros r l Hr. pose proof (step_length s c) as Hlen.
    destruct (step_refs _ _ _ _ Hr) as [Hold|(d & -> & ->)].
    + apply Hb in Hold. lia.
    + cbn. rewrite length_app. cbn. lia.
  - intros r1 r2 l H1 H2.
    destruct (step_refs _ _ _ _ H1) as [O1|(d1 & E1 & L1)];
      destruct (step_refs _ _ _ _ H2) as [O2|(d2 & E2 & L2)].
    + eauto.
    + subst. apply Hb in O1. lia.
    + subst. apply Hb in O2. lia.
    + congruence.
Qed.

Lemma run_cons s c cs :
  run s (c :: cs) =
  (((c, (step s c).1) :: (run (step s c).2 cs).1), (run (step s c).2 cs).2).
Proof. cbn. destruct (step s c), (run _ cs). done. Qed.

Lemma run_wf cs : ∀ s, wf s → wf (run s cs).2.
Proof.
  induction cs as [|c cs IH]; intros s Hwf; [done|].
  rewrite run_cons. cbn. apply IH, step_wf, Hwf.
Qed.

Lemma promise_known s r node last l p :
  proposals s !! r = Some l → objects s !! l = Some p →
  promise s r node last =
    if last <? Proposal.timestamp p
    then (true, set_objects s (<[l := Proposal.add_promise p]> (objects s)))
    else (false, s).
Proof. intros Hl Hp. unfold promise. by rewrite Hl, Hp. Qed.

Lemma accept_known s r l p :
  proposals s !! r = Some l → objects s !! l = Some p →
  accept s r =
    if quorum_size s <=? Proposal.promises p
    then (true,
          mk (dominant_component s) (quorum_size s) (proposals s) (promises s)
             (<[r := l]> (accepted s)) (current_timestamp s)
             (<[l := Proposal.set_accepts p]> (objects s)))
    else (false, s).
Proof. intros Hl Hp. unfold accept. by rewrite Hl, Hp. Qed.

(** *** [promise] *)

(** C4.  [promise] returns false on a request without proposal; on a known
    request it grants (one more promise, true) exactly when the proposal's
    timestamp is strictly greater than [last_timestamp] and otherwise
    returns false and changes nothing; the node is not looked at, so a
    second grant for the same node counts again. *)
Theorem promise_spec s r node last :
  (proposals s !! r = None → promise s r node last = (false, s)) ∧
  (∀ l p, proposals s !! r = Some l → objects s !! l = Some p →
     (Proposal.timestamp p ≤ last → promise s r node last = (false, s)) ∧
     (last < Proposal.timestamp p →
        promise s r node last =
          (true, set_objects s (<[l := Proposal.add_promise p]> (objects s))) ∧
        proposal_record (promise s r node last).2 r =
          Some (Proposal.add_promise p) ∧
        ∀ last', last' < Proposal.timestamp p →
          (promise (promise s r node last).2 r node last').1 = true ∧
          Proposal.promises <$>
            proposal_record (promise (promise s r node last).2 r node last').2 r
          = Some (Proposal.promises p + 2))).
Proof.
  split.
  - intros Hn. unfold promise. by rewrite Hn.
  - intros l p Hl Hp.
    assert (Hlt : (l < length (objects s))%nat) by (eapply lookup_lt_Some; eauto).
    split.
    + intros Hle. unfold promise. rewrite Hl, Hp.
      destruct (Z.ltb_spec last (Proposal.timestamp p)); [lia|done].
    + intros Hgt.
      assert (E1 : promise s r node last =
                (true, set_objects s (<[l := Proposal.add_promise p]> (objects s)))).
      { unfold promise. rewrite Hl, Hp.
        destruct (Z.ltb_spec last (Proposal.timestamp p)); [done|lia]. }
      rewrite E1. cbn [fst snd]. split; [done|]. split.
      * unfold proposal_record, set_objects. cbn [proposals objects].
        rewrite Hl. cbn [mbind option_bind].
        by rewrite list_lookup_insert_eq.
      * intros last' Hgt'.
        assert (E2 : promise (set_objects s (<[l := Proposal.add_promise p]> (objects s)))
                       r node last' =
                     (true, set_objects s
                              (<[l := Proposal.add_promise (Proposal.add_promise p)]>
                                 (objects s)))).
        { unfold promise, set_objects. cbn [proposals objects]. rewrite Hl.
          rewrite list_lookup_insert_eq by done.
          cbn [Proposal.add_promise Proposal.timestamp].
          destruct (Z.ltb_spec last' (Proposal.timestamp p)); [|lia].
          cbn [dominant_component quorum_size proposals promises accepted
               current_timestamp objects].
          by rewrite list_insert_insert_eq. }
        rewrite E2. cbn [fst snd]. split; [done|].
        unfold proposal_record, set_objects. cbn [proposals objects].
        rewrite Hl. cbn [mbind option_bind].
        rewrite list_lookup_insert_eq by done.
        cbn. f_equal. lia.
Qed.

Lemma promise_spec_witness :
  promise demo "req_001" "node1" 5 = (false, demo) ∧
  Proposal.promises <$>
    proposal_record
      (promise (promise demo "req_001" "node1" 0).2 "req_001" "node1" 0).2
      "req_001" = Some 4.
Proof.
  assert (Hl : proposals demo !! "req_001"%string = Some 0%nat) by (vm_compute; reflexivity).
  assert (Hp : objects demo !! 0%nat
               = Some (Proposal.mk 1 (VDict [("payload"%string, VStr "test")]) 2 2))
    by (vm_compute; reflexivity).
  destruct (promise_spec demo "req_001" "node1" 5) as [_ H5].
  destruct (promise_spec demo "req_001" "node1" 0) as [_ H0].
  destruct (H5 _ _ Hl Hp) as [Hrej _].
  destruct (H0 _ _ Hl Hp) as [_ Hgrant].
  split.
  - apply Hrej. cbn. lia.
  - destruct Hgrant as (_ & _ & Htwice); [cbn; lia|].
    destruct (Htwice 0) as [_ E]; [cbn; lia|]. exact E.
Defined.

(** *** [accept] *)

Lemma accept_below s r l p :
  proposals s !! r = Some l → objects s !! l = Some p →
  Proposal.promises p < quorum_size s → accept s r = (false, s).
Proof.
  intros Hl Hp Hq. rewrite (accept_known s r l p Hl Hp).
  destruct (Z.leb_spec (quorum_size s) (Proposal.promises p)); [lia|done].
Qed.

Lemma accept_quorum s r l p :
  proposals s !! r = Some l → objects s !! l = Some p →
  quorum_size s ≤ Proposal.promises p →
  (accept s r).1 = true ∧
  accepted (accept s r).2 = <[r := l]> (accepted s) ∧
  accepted_record (accept s r).2 r = Some (Proposal.set_accepts p) ∧
  proposal_record (accept s r).2 r = Some (Proposal.set_accepts p).
Proof.
  intros Hl Hp Hq.
  assert (Hlt : (l < length (objects s))%nat) by (eapply lookup_lt_Some; eauto).
  rewrite (accept_known s r l p Hl Hp).
  destruct (Z.leb_spec (quorum_size s) (Proposal.promises p)); [|lia].
  unfold accepted_record, proposal_record. cbn [fst snd accepted proposals objects].
  rewrite lookup_insert_eq, Hl. cbn [mbind option_bind].
  by rewrite list_lookup_insert_eq.
Qed.

(** C5.  [accept] returns false and leaves the state as it is on an unknown
    request and below the quorum; from the quorum on it returns true,
    copies the promise count into the accept count and enters the request
    in [accepted]: the record of the request, as proposal and as accepted
    entry, has the timestamp, the payload and the promise count it had,
    and an accept count equal to that promise count, whatever the counts
    were.  With quorum size 2 one granted promise on a fresh proposal is
    not enough and two are. *)
Theorem accept_spec s r :
  (proposals s !! r = None → accept s r = (false, s)) ∧
  (∀ l p, proposals s !! r = Some l → objects s !! l = Some p →
     (Proposal.promises p < quorum_size s → accept s r = (false, s)) ∧
     (quorum_size s ≤ Proposal.promises p →
        (accept s r).1 = true ∧
        accepted (accept s r).2 = <[r := l]> (accepted s) ∧
        accepted_record (accept s r).2 r =
          Some (Proposal.mk (Proposal.timestamp p) (Proposal.data p)
                            (Proposal.promises p) (Proposal.promises p)) ∧
        proposal_record (accept s r).2 r =
          Some (Proposal.mk (Proposal.timestamp p) (Proposal.data p)
                            (Proposal.promises p) (Proposal.promises p)) ∧
        (∀ p', accepted_record (accept s r).2 r = Some p' →
           Proposal.accepts p' = Proposal.promises p' ∧
           Proposal.promises p' = Proposal.promises p))) ∧
  (∀ d n1 n2 t1 t2 s1 s2,
     quorum_size s = 2 →
     promise (prepare s r d).2 r n1 t1 = (true, s1) →
     accept s1 r = (false, s1) ∧
     (promise s1 r n2 t2 = (true, s2) →
        (accept s2 r).1 = true ∧
        accepted_record (accept s2 r).2 r =
          Some (Proposal.mk (current_timestamp s + 1) d 2 2))).
Proof.
  split; [|split].
  - intros Hn. unfold accept. by rewrite Hn.
  - intros l p Hl Hp. split; [by apply (accept_below s r l p)|].
    intros Hq.
    destruct (accept_quorum s r l p Hl Hp Hq) as (Hb & Hacc & Hrec & Hprop).
    split; [exact Hb|]. split; [exact Hacc|]. split; [exact Hrec|].
    split; [exact Hprop|].
    intros p' Hp'. rewrite Hrec in Hp'. injection Hp' as <-. done.
  - intros d n1 n2 t1 t2 s1 s2 Hq H1.
    set (p0 := Proposal.mk (current_timestamp s + 1) d 0 0).
    set (l := length (objects s)).
    set (s0 := (prepare s r d).2) in *.
    assert (Hl : proposals s0 !! r = Some l) by apply lookup_insert_eq.
    assert (Hp0 : objects s0 !! l = Some p0).
    { cbn. rewrite lookup_app_r by done. by rewrite Nat.sub_diag. }
    assert (Hlen : (l < length (objects s0))%nat) by (eapply lookup_lt_Some; eauto).
    rewrite (promise_known _ _ _ _ _ _ Hl Hp0) in H1.
    destruct (t1 <? Proposal.timestamp p0); [|done].
    set (o1 := <[l := Proposal.add_promise p0]> (objects s0)) in *.
    assert (E1 : s1 = set_objects s0 o1) by (injection H1 as H1; symmetry; exact H1).
    clear H1. subst s1.
    assert (Hp1 : objects (set_objects s0 o1) !! l = Some (Proposal.add_promise p0))
      by (by apply list_lookup_insert_eq).
    split.
    + apply (accept_below (set_objects s0 o1) r l _ Hl Hp1). cbn. lia.
    + rewrite (promise_known (set_objects s0 o1) r n2 t2 l _ Hl Hp1).
      destruct (t2 <? _); [|done].
      set (o2 := <[l := _]> _). intros H2.
      assert (E2 : s2 = set_objects (set_objects s0 o1) o2)
        by (injection H2 as H2; symmetry; exact H2).
      clear H2. subst s2.
      assert (Hlen1 : (l < length o1)%nat) by (unfold o1; by rewrite length_insert).
      assert (Hp2 : objects (set_objects (set_objects s0 o1) o2) !! l
                    = Some (Proposal.add_promise (Proposal.add_promise p0)))
        by (by apply list_lookup_insert_eq).
      destruct (accept_quorum (set_objects (set_objects s0 o1) o2) r l _ Hl Hp2)
        as (Hb & _ & Hrec & _); [cbn; lia|].
      split; [exact Hb|]. rewrite Hrec. done.
Qed.

Lemma accept_spec_witness :
  accept (init "CloudInference" 2) "req_001" = (false, init "CloudInference" 2) ∧
  (accept demo "req_001").1 = true ∧
  accepted_record
    (accept (promise demo "req_001" "node3" 0).2 "req_001").2 "req_001"
  = Some (Proposal.mk 1 (VDict [("payload"%string, VStr "test")]) 3 3).
Proof.
  destruct (accept_spec (init "CloudInference" 2) "req_001") as (Hunk & _ & Hsc).
  destruct (accept_spec (promise demo "req_001" "node3" 0).2 "req_001")
    as (_ & Hknown & _).
  split; [|split].
  - apply Hunk. reflexivity.
  - edestruct (Hsc (VDict [("payload"%string, VStr "test")])
                   "node1"%string "node2"%string 0 0) as [_ H2];
      [reflexivity|vm_compute; reflexivity|].
    edestruct H2 as [Hb _]; [vm_compute; reflexivity|].
    exact Hb.
  - destruct (Hknown 0%nat
                (Proposal.mk 1 (VDict [("payload"%string, VStr "test")]) 3 2))
      as [_ Hq]; [vm_compute; reflexivity|vm_compute; reflexivity|].
    destruct Hq as (_ & _ & Hrec & _); [by vm_compute|]. exact Hrec.
Defined.


(** *** What calls do to the stored objects *)

(** An object keeps its timestamp and payload, and its promise count
    never goes down. *)
Lemma step_object_stable s c l p :
  objects s !! l = Some p →
  ∃ p', objects (step s c).2 !! l = Some p' ∧
        Proposal.timestamp p' = Proposal.timestamp p ∧
        Proposal.data p' = Proposal.data p ∧
        Proposal.promises p ≤ Proposal.promises p'.
Proof.
  intros Hp.
  assert (Hlt : (l < length (objects s))%nat) by (eapply lookup_lt_Some; eauto).
  assert (Hsame : ∃ p', objects s !! l = Some p' ∧
            Proposal.timestamp p' = Proposal.timestamp p ∧
            Proposal.data p' = Proposal.data p ∧
            Proposal.promises p ≤ Proposal.promises p')
    by (exists p; repeat split; [done|lia]).
  destruct c as [r0 d|r0 n t|r0]; cbn [step].
  - exists p. cbn. rewrite lookup_app_l by done. repeat split; [done|lia].
  - unfold promise.
    destruct (proposals s !! r0) as [l0|]; [|done].
    destruct (objects s !! l0) as [p0|] eqn:Hp0; [|done].
    destruct (t <? Proposal.timestamp p0); [|done].
    cbn [snd set_objects objects].
    destruct (decide (l0 = l)) as [->|Hne].
    + rewrite list_lookup_insert_eq by done.
      assert (p0 = p) as -> by congruence.
      eexists; split; [done|]. cbn. repeat split; lia.
    + rewrite list_lookup_insert_ne by done. done.
  - unfold accept.
    destruct (proposals s !! r0) as [l0|]; [|done].
    destruct (objects s !! l0) as [p0|] eqn:Hp0; [|done].
    destruct (quorum_size s <=? Proposal.promises p0); [|done].
    cbn [snd objects].
    destruct (decide (l0 = l)) as [->|Hne].
    + rewrite list_lookup_insert_eq by done.
      assert (p0 = p) as -> by congruence.
      eexists; split; [done|]. cbn. repeat split; lia.
    + rewrite list_lookup_insert_ne by done. done.
Qed.

(** An object that only [r] refers to is written by [promise] and
    [accept] on [r] alone. *)
Lemma step_object_untouched s c r l p :
  owned s r l → objects s !! l = Some p → touches r c = false →
  objects (step s c).2 !! l = Some p.
Proof.
  intros Hown Hp Hc.
  assert (Hlt : (l < length (objects s))%nat) by (eapply lookup_lt_Some; eauto).
  destruct c as [r0 d|r0 n t|r0]; cbn [step touches] in *.
  - cbn. by rewrite lookup_app_l.
  - apply String.eqb_neq in Hc. unfold promise.
    destruct (proposals s !! r0) as [l0|] eqn:Hl0; [|done].
    destruct (objects s !! l0) as [p0|]; [|done].
    destruct (t <? Proposal.timestamp p0); [|done].
    cbn [snd set_objects objects].
    rewrite list_lookup_insert_ne; [done|].
    intros ->. destruct Hc. symmetry. apply Hown. by left.
  - apply String.eqb_neq in Hc. unfold accept.
    destruct (proposals s !! r0) as [l0|] eqn:Hl0; [|done].
    destruct (objects s !! l0) as [p0|]; [|done].
    destruct (quorum_size s <=? Proposal.promises p0); [|done].
    cbn [snd objects].
    rewrite list_lookup_insert_ne; [done|].
    intros ->. destruct Hc. symmetry. apply Hown. by left.
Qed.

Lemma step_owned s c r l :
  (l < length (objects s))%nat → owned s r l → owned (step s c).2 r l.
Proof.
  intros Hlt Hown r' Hr'.
  destruct (step_refs _ _ _ _ Hr') as [Hold|(d & _ & ->)]; [by apply Hown|lia].
Qed.

Lemma step_accepted_untouched s c r :
  touches r c = false → accepted (step s c).2 !! r = accepted s !! r.
Proof.
  intros Hc. destruct c as [r0 d|r0 n t|r0]; cbn [step touches] in *.
  - done.
  - unfold promise. by repeat case_match.
  - apply String.eqb_neq in Hc. unfold accept.
    repeat case_match; try done. cbn. by rewrite lookup_insert_ne.
Qed.

Lemma run_object cs : ∀ s r l p,
  owned s r l → objects s !! l = Some p →
  ∃ p', objects (run s cs).2 !! l = Some p' ∧
        Proposal.timestamp p' = Proposal.timestamp p ∧
        Proposal.data p' = Proposal.data p ∧
        Proposal.promises p ≤ Proposal.promises p' ∧
        (forallb (λ c, negb (touches r c)) cs = true →
         p' = p ∧ accepted (run s cs).2 !! r = accepted s !! r).
Proof.
  induction cs as [|c cs IH]; intros s r l p Hown Hp.
  - exists p. cbn. repeat split; [done|lia].
  - rewrite run_cons. cbn [snd].
    assert (Hlt : (l < length (objects s))%nat) by (eapply lookup_lt_Some; eauto).
    destruct (step_object_stable s c l p Hp) as (p1 & Hp1 & Hts & Hd & Hpr).
    destruct (IH (step s c).2 r l p1 (step_owned _ _ _ _ Hlt Hown) Hp1)
      as (p' & Hp' & Hts' & Hd' & Hpr' & Hfr).
    exists p'.
    split; [done|]. split; [congruence|]. split; [congruence|]. split; [lia|].
    cbn [forallb]. intros [Hc Hcs]%andb_prop. apply negb_true_iff in Hc.
    pose proof (step_object_untouched s c r l p Hown Hp Hc) as Hu.
    assert (p1 = p) as -> by congruence.
    destruct (Hfr Hcs) as [-> Hacc]. split; [done|].
    rewrite Hacc. by apply step_accepted_untouched.
Qed.

(** C3, as the code has it.  The accepted entry is the proposal object
    itself.  After any further calls that object still has the timestamp
    and the payload it was accepted with and at least as many promises;
    and as long as no [promise] or [accept] is made on the same request,
    the accepted record of the request is exactly what it was. *)
Theorem accepted_record_frame s cs r l p :
  wf s → accepted s !! r = Some l → objects s !! l = Some p →
  ∃ p', objects (run s cs).2 !! l = Some p' ∧
        Proposal.timestamp p' = Proposal.timestamp p ∧
        Proposal.data p' = Proposal.data p ∧
        Proposal.promises p ≤ Proposal.promises p' ∧
        (forallb (λ c, negb (touches r c)) cs = true →
         accepted_record (run s cs).2 r = Some p).
Proof.
  intros [_ Hu] Hl Hp.
  assert (Hown : owned s r l) by (intros r' Hr'; eapply Hu; [done|by right]).
  destruct (run_object cs s r l p Hown Hp) as (p' & Hp' & Hts & Hd & Hpr & Hfr).
  exists p'. do 4 (split; [done|]).
  intros Hcs. destruct (Hfr Hcs) as [-> Hacc].
  unfold accepted_record. rewrite Hacc, Hl. done.
Qed.

Lemma demo_wf : wf demo.
Proof. apply run_wf, init_wf. Qed.

Lemma accepted_record_frame_witness :
  accepted_record
    (run demo [Prepare "req_001" VNone; Prepare "req_002" VNone;
               Promise "req_002" "node1" 0; Accept "req_002"]).2 "req_001"
  = Some (Proposal.mk 1 (VDict [("payload"%string, VStr "test")]) 2 2).
Proof.
  destruct (accepted_record_frame demo
              [Prepare "req_001" VNone; Prepare "req_002" VNone;
               Promise "req_002" "node1" 0; Accept "req_002"]
              "req_001" 0%nat
              (Proposal.mk 1 (VDict [("payload"%string, VStr "test")]) 2 2)
              demo_wf) as (p' & _ & _ & _ & _ & Hfr);
    [vm_compute; reflexivity|vm_compute; reflexivity|].
  apply Hfr. vm_compute. reflexivity.
Defined.

(** C3 as stated fails: the accepted entry is not a copy, so a promise
    made after the accept shows in the accepted record. *)
Lemma accepted_record_is_aliased :
  (accept (run (init "CloudInference" 2)
               [Prepare "req_001" (VDict [("payload"%string, VStr "test")]);
                Promise "req_001" "node1" 0;
                Promise "req_001" "node2" 0]).2 "req_001").1 = true ∧
  Proposal.promises <$> accepted_record demo "req_001" = Some 2 ∧
  Proposal.promises <$>
    accepted_record (promise demo "req_001" "node3" 0).2 "req_001" = Some 3 ∧
  accepted_record (promise demo "req_001" "node3" 0).2 "req_001"
    ≠ accepted_record demo "req_001".
Proof.
  split; [vm_compute; reflexivity|].
  split; [vm_compute; reflexivity|].
  split; [vm_compute; reflexivity|].
  vm_compute. discriminate.
Qed.

(** *** [learn] *)

Lemma step_accepted s c r :
  is_Some (accepted (step s c).2 !! r) ↔
  is_Some (accepted s !! r) ∨ (c = Accept r ∧ (step s c).1 = true).
Proof.
  destruct c as [r0 d|r0 n t|r0]; cbn [step].
  - cbn. split; [tauto|]. intros [H|[H _]]; [done|discriminate].
  - unfold promise. split.
    + repeat case_match; cbn; tauto.
    + intros [H|[H _]]; [|discriminate]. repeat case_match; done.
  - unfold accept.
    destruct (proposals s !! r0) as [l0|]; [|cbn; split; [tauto|]; intros [?|[_ ?]]; done].
    destruct (objects s !! l0) as [p0|]; [|cbn; split; [tauto|]; intros [?|[_ ?]]; done].
    destruct (quorum_size s <=? Proposal.promises p0);
      [|cbn; split; [tauto|]; intros [?|[_ ?]]; done].
    cbn. rewrite lookup_insert_is_Some. split.
    + intros [->|[_ H]]; [by right|by left].
    + intros [H|[[= ->] _]]; [|by left].
      destruct (decide (r0 = r)); [by left|by right].
Qed.

Lemma run_accepted cs : ∀ s r,
  is_Some (accepted (run s cs).2 !! r) ↔
  is_Some (accepted s !! r) ∨ (Accept r, true) ∈ (run s cs).1.
Proof.
  induction cs as [|c cs IH]; intros s r.
  - cbn. rewrite elem_of_nil. tauto.
  - rewrite run_cons. cbn [fst snd]. rewrite IH, step_accepted, elem_of_cons.
    split.
    + intros [[H|[-> Hb]]|H]; [by left| |by right; right].
      right; left. by rewrite Hb.
    + intros [H|[[= -> Hb]|H]]; [by left; left| |by right].
      left; right. done.
Qed.

Lemma step_tracked P s c :
  wf s → tracked P s → (∀ r d, c = Prepare r d → P r d) →
  tracked P (step s c).2.
Proof.
  intros [Hb _] Ht Hc r l p' Hr Hp'.
  destruct (step_refs _ _ _ _ Hr) as [Hold|(d & -> & ->)].
  - pose proof (Hb _ _ Hold) as Hlt.
    destruct (lookup_lt_is_Some_2 _ _ Hlt) as [p Hp].
    destruct (step_object_stable s c l p Hp) as (p1 & Hp1 & _ & Hd & _).
    assert (p1 = p') as -> by congruence.
    rewrite Hd. by eapply Ht.
  - cbn in Hp'. rewrite lookup_app_r in Hp' by done.
    rewrite Nat.sub_diag in Hp'. injection Hp' as <-. cbn. by eapply Hc.
Qed.

Lemma run_tracked P cs : ∀ s,
  wf s → tracked P s →
  (∀ r d, (Prepare r d, true) ∈ (run s cs).1 → P r d) →
  tracked P (run s cs).2.
Proof.
  induction cs as [|c cs IH]; intros s Hwf Ht HP; [done|].
  rewrite run_cons in *. cbn [fst snd] in *.
  apply IH.
  - by apply step_wf.
  - apply step_tracked; [done..|].
    intros r d ->. apply HP. cbn. apply list_elem_of_here.
  - intros r d Hin. apply HP. by apply list_elem_of_further.
Qed.

(** C2, as the code has it.  After any calls on a new simulator, [learn]
    has no value for a request no [accept] succeeded on; for a request
    some [accept] succeeded on it returns the whole accepted record (the
    dictionary with timestamp, data, promises and accepts), whose data
    entry is a payload given to [prepare] for that request. *)
Theorem learn_spec dominant quorum cs r :
  ((Accept r, true) ∉ (run (init dominant quorum) cs).1 →
     learn (run (init dominant quorum) cs).2 r = None) ∧
  ((Accept r, true) ∈ (run (init dominant quorum) cs).1 →
     ∃ p, accepted_record (run (init dominant quorum) cs).2 r = Some p ∧
          learn (run (init dominant quorum) cs).2 r = Some (Proposal.as_value p) ∧
          (Prepare r (Proposal.data p), true) ∈ (run (init dominant quorum) cs).1).
Proof.
  pose proof (run_accepted cs (init dominant quorum) r) as Hacc.
  pose proof (run_wf cs _ (init_wf dominant quorum)) as Hwf.
  set (s := (run (init dominant quorum) cs).2) in *.
  set (log := (run (init dominant quorum) cs).1) in *.
  split.
  - intros Hno. unfold learn.
    destruct (accepted s !! r) as [l|] eqn:Hl; [|done].
    destruct Hacc as [Hacc _]. destruct Hacc as [[? H]|H]; [by eexists| |done].
    cbn in H. by rewrite lookup_empty in H.
  - intros Hyes.
    destruct Hacc as [_ Hacc]. destruct Hacc as [l Hl]; [by right|].
    destruct Hwf as [Hb Hu].
    assert (Hlt : (l < length (objects s))%nat) by (apply (Hb r); by right).
    destruct (lookup_lt_is_Some_2 _ _ Hlt) as [p Hp].
    exists p. unfold accepted_record, learn. rewrite Hl. cbn. rewrite Hp.
    split; [done|]. split; [done|].
    assert (Htr : tracked (λ r d, (Prepare r d, true) ∈ log) s).
    { apply run_tracked; [apply init_wf| |done].
      intros r' l' p' [H|H]; cbn in H; by rewrite lookup_empty in H. }
    eapply Htr; [by right|done].
Qed.

Lemma learn_spec_witness :
  learn demo "req_002" = None ∧
  ∃ p, learn demo "req_001" = Some (Proposal.as_value p).
Proof.
  split.
  - apply (learn_spec "CloudInference" 2 demo_calls "req_002").
    vm_compute. intros H. repeat (apply elem_of_cons in H as [H|H]; [discriminate H|]).
    by apply elem_of_nil in H.
  - destruct (learn_spec "CloudInference" 2 demo_calls "req_001") as [_ H].
    destruct H as (p & _ & Hp & _).
    + vm_compute. do 3 apply list_elem_of_further. apply list_elem_of_here.
    + exists p. exact Hp.
Defined.

(** C2 as stated fails: [learn] hands back the record, not its payload. *)
Lemma learn_returns_whole_record :
  learn demo "req_001" =
    Some (VDict [("timestamp"%string, VInt 1);
                 ("data"%string, VDict [("payload"%string, VStr "test")]);
                 ("promises"%string, VInt 2);
                 ("accepts"%string, VInt 2)]) ∧
  learn_payload_only demo "req_001" =
    Some (VDict [("payload"%string, VStr "test")]) ∧
  learn demo "req_001" ≠ learn_payload_only demo "req_001".
Proof.
  split; [vm_compute; reflexivity|].
  split; [vm_compute; reflexivity|].
  vm_compute. discriminate.
Qed.

End ConsensusFacts.

(** ** The contention model *)

Module ContentionFacts.
Import Contention.
Local Open Scope Q_scope.

(** C6.  [check_invariants] is true exactly when the dominance flag is
    true, the reliability is at least 94.7 and the quorum availability is
    at least 2/3; so it is false below 94.7 whatever the other two are,
    and true at the boundary. *)
Theorem check_invariants_spec m is_latency_dominant quorum_available :
  ((check_invariants m is_latency_dominant quorum_available).1 = true ↔
     is_latency_dominant = true ∧
     94.7 <= reliability_percent (component m) ∧
     2 / 3 <= quorum_available) ∧
  (reliability_percent (component m) < 94.7 →
     (check_invariants m is_latency_dominant quorum_available).1 = false) ∧
  (reliability_percent (component m) == 94.7 →
     (check_invariants m true (2 / 3)).1 = true) ∧
  is_feasible (check_invariants m is_latency_dominant quorum_available).2
    = (check_invariants m is_latency_dominant quorum_available).1.
Proof.
  unfold check_invariants, is_feasible. cbn [fst snd invariants_valid].
  split; [|split; [|split; [|reflexivity]]].
  - rewrite !andb_true_iff, !Qle_bool_iff. tauto.
  - intros Hlt. destruct (Qle_bool 94.7 _) eqn:E.
    + apply Qle_bool_iff in E. lra.
    + by rewrite andb_false_r.
  - intros Heq. cbn [andb].
    assert (H2 : Qle_bool 94.7 (reliability_percent (component m)) = true)
      by (apply Qle_bool_iff; lra).
    rewrite H2. reflexivity.
Qed.

Lemma check_invariants_spec_witness :
  (check_invariants (init WebGateway 2) true (2 / 3)).1 = true ∧
  (check_invariants (init CloudInference 2) true 0.95).1 = false.
Proof.
  destruct (check_invariants_spec (init WebGateway 2) true (2 / 3))
    as (_ & _ & Hboundary & _).
  destruct (check_invariants_spec (init CloudInference 2) true 0.95)
    as (_ & Hbelow & _).
  split.
  - apply Hboundary. reflexivity.
  - apply Hbelow. reflexivity.
Defined.

End ContentionFacts.

(** ** The optimizers *)

Section OptimizerFacts.
Variable pow : Q → Q → Q.
Local Open Scope Q_scope.

Lemma fdiv_nonzero x y : ¬ y == 0 → fdiv x y = Ok (x / y).
Proof.
  intros Hy. unfold fdiv. destruct (Qeq_bool y 0) eqn:E; [|done].
  by apply Qeq_bool_iff in E.
Qed.

Lemma fdiv_zero x y : y == 0 → fdiv x y = Err ZeroDivisionError.
Proof. intros Hy. unfold fdiv. apply Qeq_bool_iff in Hy. by rewrite Hy. Qed.

(** C7, as the code has it.  [optimal_contention] is 0 when beta is at
    most 1, whatever alpha is, and the closed form when beta is above 1
    and alpha is not 0; when beta is above 1 and alpha is 0 the division
    raises [ZeroDivisionError], whatever the power function is. *)
Theorem optimal_contention_spec o :
  (beta o <= 1 → optimal_contention pow o = Ok 0) ∧
  (1 < beta o → ¬ alpha o == 0 →
     optimal_contention pow o =
       Ok (pow (beta o / (alpha o * (beta o - 1))) (1 / beta o))) ∧
  (1 < beta o → alpha o == 0 →
     optimal_contention pow o = Err ZeroDivisionError).
Proof.
  unfold optimal_contention. split; [|split].
  - intros Hb. apply Qle_bool_iff in Hb. by rewrite Hb.
  - intros Hb Ha.
    destruct (Qle_bool (beta o) 1) eqn:E; [apply Qle_bool_iff in E; lra|].
    rewrite (fdiv_nonzero (beta o) (alpha o * (beta o - 1))).
    + rewrite (fdiv_nonzero 1 (beta o)); [done|]. intros H0. lra.
    + intros H0. apply Qmult_integral in H0 as [H0|H0]; [done|lra].
  - intros Hb Ha.
    destruct (Qle_bool (beta o) 1) eqn:E; [apply Qle_bool_iff in E; lra|].
    rewrite (fdiv_zero (beta o) (alpha o * (beta o - 1))); [done|].
    rewrite Ha. lra.
Qed.

(** *** The throughput search *)

Lemma search_step_ok t max_mem b c :
  max_mem < memory_divergence pow t c →
  search_step pow t max_mem (Ok b) c = Ok b.
Proof.
  intros Hc. unfold search_step. cbn.
  destruct (Qle_bool _ max_mem) eqn:E; [|done].
  apply Qle_bool_iff in E. lra.
Qed.

(** With every sample above the ceiling the search keeps its start. *)
Lemma search_infeasible t max_mem cs : ∀ b,
  (∀ c, c ∈ cs → max_mem < memory_divergence pow t c) →
  fold_left (search_step pow t max_mem) cs (Ok b) = Ok b.
Proof.
  induction cs as [|c cs IH]; intros b Hcs; [done|].
  cbn [fold_left]. rewrite search_step_ok by (apply Hcs; left).
  apply IH. intros c' Hc'. apply Hcs. by right.
Qed.

(** The search raises nothing but [ZeroDivisionError]. *)
Lemma search_errors t max_mem cs : ∀ b,
  (b = Err ZeroDivisionError ∨ ∃ x, b = Ok x) →
  fold_left (search_step pow t max_mem) cs b = Err ZeroDivisionError ∨
  ∃ x, fold_left (search_step pow t max_mem) cs b = Ok x.
Proof.
  induction cs as [|c cs IH]; intros b Hb; [done|].
  cbn [fold_left]. apply IH.
  destruct Hb as [->|[x ->]]; [by left|].
  unfold search_step. cbn.
  destruct (Qle_bool _ max_mem); [|by right; eexists].
  unfold fdiv. destruct (Qeq_bool _ 0); [by left|]. cbn.
  destruct (Qgt_bool _ _); right; by eexists.
Qed.

(** A component without throughput makes the final division raise, feasible
    samples or not. *)
Lemma optimize_throughput_zero_throughput t :
  throughput_mbps (component t) == 0 →
  optimize_throughput pow t = Err ZeroDivisionError.
Proof.
  intros Hz. unfold optimize_throughput.
  destruct (search_errors t (max_memory_allowed t) grid (Ok (0, 0)))
    as [->|[[bc bt] ->]]; [by right; eexists|done|].
  cbn. by rewrite fdiv_zero.
Qed.

(** With no sample under the ceiling and a component that has throughput,
    the result is the zero optimum. *)
Lemma optimize_throughput_infeasible t :
  (∀ c, c ∈ grid → max_memory_allowed t < memory_divergence pow t c) →
  ¬ throughput_mbps (component t) == 0 →
  optimize_throughput pow t =
    Ok (mkOptimum 0 0 (throughput_mbps (component t))
          ((0 - throughput_mbps (component t)) / throughput_mbps (component t) * 100)
          (memory_divergence pow t 0) (max_memory_allowed t)).
Proof.
  intros Hgrid Htp. unfold optimize_throughput.
  rewrite search_infeasible by done. cbn. by rewrite fdiv_nonzero.
Qed.

(** C8 fails on a component whose throughput is 0: with a divergence
    limit that puts the ceiling below the base memory, the call raises
    instead of returning the zero optimum. *)
Theorem optimize_throughput_idle_raises :
  max_memory_allowed (throughput_optimizer Idle 0.05 (-0.5)) < memory_gb Idle ∧
  optimize_throughput pow (throughput_optimizer Idle 0.05 (-0.5))
    = Err ZeroDivisionError.
Proof.
  split; [reflexivity|].
  apply optimize_throughput_zero_throughput. reflexivity.
Qed.

Lemma grid_head : grid = 0.1 :: tail grid.
Proof. by vm_compute. Qed.

Lemma grid_lower c : c ∈ grid → 0.1 <= c.
Proof.
  intros Hc. apply list_elem_of_In in Hc.
  assert (H : forallb (Qle_bool 0.1) grid = true) by (by vm_compute).
  rewrite forallb_forall in H. by apply Qle_bool_iff, H.
Qed.

Lemma div_antitone a m1 m2 : 0 <= a → 0 < m1 → m1 <= m2 → a / m2 <= a / m1.
Proof.
  intros Ha H1 H2.
  apply Qle_shift_div_r; [lra|].
  assert (Hq : 0 <= a / m1) by (apply Qle_shift_div_l; lra).
  assert (E : a == a / m1 * m1) by (field; lra).
  nra.
Qed.

(** A sample that is above the ceiling, or whose candidate throughput is
    not above the best so far, leaves the best as it is. *)
Lemma search_dominated t max_mem cs : ∀ b,
  (∀ c, c ∈ cs →
     max_mem < memory_divergence pow t c ∨
     (0 < memory_divergence pow t c ∧
      throughput_mbps (component t) * (max_mem / memory_divergence pow t c)
        <= b.2)) →
  fold_left (search_step pow t max_mem) cs (Ok b) = Ok b.
Proof.
  induction cs as [|c cs IH]; intros b Hcs; [done|].
  cbn [fold_left].
  assert (E : search_step pow t max_mem (Ok b) c = Ok b).
  { destruct (Hcs c) as [Habove|[Hpos Hle]]; [by left|by apply search_step_ok|].
    unfold search_step. cbn.
    destruct (Qle_bool _ max_mem); [|done].
    rewrite fdiv_nonzero by lra. cbn.
    unfold Qgt_bool. apply Qle_bool_iff in Hle. by rewrite Hle. }
  rewrite E. apply IH. intros c' Hc'. apply Hcs. by right.
Qed.

Section Defaults.
Variable c : Component.
Hypothesis Hpow : pow_monotone pow.
Hypothesis Hlat : 0 < latency_ms c.
Hypothesis Hmem : 0 < memory_gb c.

Local Abbreviation t := (default_throughput_optimizer c).

Lemma memory_divergence_default x :
  memory_divergence pow t x ==
  memory_gb c + 0.05 * x * (latency_ms c * (1 + 0.2 * pow x 1.5)) / 1000.
Proof. reflexivity. Qed.

Lemma memory_divergence_monotone x y :
  0 < x → x <= y → memory_divergence pow t x <= memory_divergence pow t y.
Proof.
  intros Hx Hxy. rewrite !memory_divergence_default.
  destruct Hpow as [Hnn Hmono].
  pose proof (Hnn x Hx) as Hpx. pose proof (Hmono x y Hx Hxy) as Hpy.
  set (px := pow x 1.5) in *. set (py := pow y 1.5) in *.
  set (L := latency_ms c) in *.
  assert (H1 : x * (1 + 0.2 * px) <= y * (1 + 0.2 * py)) by nra.
  assert (H2 : L * (x * (1 + 0.2 * px)) <= L * (y * (1 + 0.2 * py))) by nra.
  apply Qplus_le_r. apply Qmult_le_compat_r; [|by vm_compute]. lra.
Qed.

Lemma memory_divergence_positive x : 0 < x → 0 < memory_divergence pow t x.
Proof.
  intros Hx. rewrite memory_divergence_default.
  destruct Hpow as [Hnn _]. pose proof (Hnn x Hx) as Hpx.
  set (px := pow x 1.5) in *. set (L := latency_ms c) in *.
  assert (H0 : 0 <= x * (1 + 0.2 * px)) by (apply Qmult_le_0_compat; lra).
  assert (H1 : 0 <= L * (x * (1 + 0.2 * px))) by (apply Qmult_le_0_compat; lra).
  assert (H2 : 0 <= 0.05 * x * (L * (1 + 0.2 * px)) / 1000).
  { apply Qle_shift_div_l; [reflexivity|]. lra. }
  lra.
Qed.
End Defaults.

(** Where the component has throughput, a non-negative latency and request
    size, a ceiling below the base memory gives the zero optimum. *)
Lemma optimize_throughput_degenerate c rs dl :
  (∀ x, 0 < x → 0 <= pow x 1.5) →
  0 <= latency_ms c → 0 <= rs → ¬ throughput_mbps c == 0 →
  max_memory_allowed (throughput_optimizer c rs dl) < memory_gb c →
  ∃ r, optimize_throughput pow (throughput_optimizer c rs dl) = Ok r ∧
       opt_optimal_contention r = 0 ∧ opt_optimized_throughput r = 0.
Proof.
  intros Hnn Hlat Hrs Htp Hbelow. eexists. split.
  - apply optimize_throughput_infeasible; [|done].
    intros x Hx. apply grid_lower in Hx.
    assert (Hp : 0 <= pow x 1.5) by (apply Hnn; lra).
    eapply Qlt_le_trans; [exact Hbelow|].
    change (memory_divergence pow (throughput_optimizer c rs dl) x)
      with (memory_gb c + rs * x * (latency_ms c * (1 + 0.2 * pow x 1.5)) / 1000).
    set (px := pow x 1.5) in *. set (L := latency_ms c) in *.
    assert (H0 : 0 <= L * (1 + 0.2 * px)) by (apply Qmult_le_0_compat; lra).
    assert (H1 : 0 <= rs * x) by (apply Qmult_le_0_compat; lra).
    assert (H2 : 0 <= rs * x * (L * (1 + 0.2 * px))) by (by apply Qmult_le_0_compat).
    assert (H3 : 0 <= rs * x * (L * (1 + 0.2 * px)) / 1000).
    { apply Qle_shift_div_l; [reflexivity|]. lra. }
    lra.
  - done.
Qed.

(** C10.  With the default parameters and a component of positive
    latency, memory and throughput, the search returns the first sample,
    0.1, when that sample is under the ceiling, and the zero optimum when
    it is not: later samples need at least as much memory, so none of
    them is feasible when the first is not and none yields a greater
    throughput. *)
Theorem optimize_throughput_default c :
  pow_monotone pow →
  0 < latency_ms c → 0 < memory_gb c → 0 < throughput_mbps c →
  (memory_divergence pow (default_throughput_optimizer c) 0.1
     <= max_memory_allowed (default_throughput_optimizer c) →
   ∃ r, optimize_throughput pow (default_throughput_optimizer c) = Ok r ∧
        opt_optimal_contention r = 0.1 ∧
        opt_optimized_throughput r =
          throughput_mbps c *
            (max_memory_allowed (default_throughput_optimizer c) /
             memory_divergence pow (default_throughput_optimizer c) 0.1) ∧
        0 < opt_optimized_throughput r) ∧
  (max_memory_allowed (default_throughput_optimizer c)
     < memory_divergence pow (default_throughput_optimizer c) 0.1 →
   ∃ r, optimize_throughput pow (default_throughput_optimizer c) = Ok r ∧
        opt_optimal_contention r = 0 ∧
        opt_optimized_throughput r = 0).
Proof.
  intros Hpow Hlat Hmem Htp.
  set (t := default_throughput_optimizer c).
  set (mx := max_memory_allowed t).
  assert (Hmx : 0 < mx).
  { unfold mx, max_memory_allowed. cbn.
    apply Qmult_lt_0_compat; [done|reflexivity]. }
  assert (Hm1 : 0 < memory_divergence pow t 0.1)
    by (apply memory_divergence_positive; [done..|reflexivity]).
  assert (Hmono : ∀ x, x ∈ grid →
            memory_divergence pow t 0.1 <= memory_divergence pow t x).
  { intros x Hx. apply memory_divergence_monotone; [done..|reflexivity|].
    by apply grid_lower. }
  split.
  - intros Hfeas.
    set (thr := throughput_mbps c * (mx / memory_divergence pow t 0.1)).
    assert (Hthr : 0 < thr).
    { apply Qmult_lt_0_compat; [done|]. apply Qlt_shift_div_l; lra. }
    assert (Hfirst : search_step pow t mx (Ok (0, 0)) 0.1 = Ok (0.1, thr)).
    { unfold search_step. cbn [mbind result_bind].
      apply Qle_bool_iff in Hfeas. fold mx in Hfeas. rewrite Hfeas.
      rewrite fdiv_nonzero by lra. cbn [mbind result_bind snd].
      change (throughput_mbps (component t)) with (throughput_mbps c).
      fold thr. unfold Qgt_bool.
      destruct (Qle_bool thr 0) eqn:E; [|done].
      apply Qle_bool_iff in E. lra. }
    assert (Hrest : fold_left (search_step pow t mx) (tail grid) (Ok (0.1, thr))
                    = Ok (0.1, thr)).
    { apply search_dominated. intros x Hx. right.
      assert (Hxg : x ∈ grid) by (rewrite grid_head; by right).
      pose proof (Hmono x Hxg) as Hle.
      split; [lra|]. cbn [snd].
      change (throughput_mbps (component t)) with (throughput_mbps c).
      unfold thr. apply Qmult_le_l; [done|].
      apply div_antitone; lra. }
    exists (mkOptimum 0.1 thr (throughput_mbps c)
              ((thr - throughput_mbps c) / throughput_mbps c * 100)
              (memory_divergence pow t 0.1) mx).
    split; [|done].
    unfold optimize_throughput. fold mx. rewrite grid_head. cbn [fold_left].
    rewrite Hfirst, Hrest. cbn [mbind result_bind].
    change (throughput_mbps (component t)) with (throughput_mbps c).
    by rewrite fdiv_nonzero by lra.
  - intros Hinf. eexists. split.
    + apply optimize_throughput_infeasible.
      * intros x Hx. pose proof (Hmono x Hx). fold t mx. lra.
      * cbn. lra.
    + done.
Qed.

End OptimizerFacts.

(** C7 as stated fails at alpha = 0: there the division raises, whatever
    the power function is. *)
Lemma optimal_contention_alpha_zero :
  (1 < beta (mkElasticity 44 0 2))%Q ∧
  ∀ pow, optimal_contention pow (mkElasticity 44 0 2) = Err ZeroDivisionError.
Proof. split; [reflexivity|]. intros pow. reflexivity. Qed.

Lemma optimal_contention_spec_witness :
  optimal_contention pow_floor (mkElasticity 44 0.2 1) = Ok 0%Q ∧
  optimal_contention pow_floor (default_elasticity 44) =
    Ok (pow_floor (1.5 / (0.2 * (1.5 - 1))) (1 / 1.5))%Q ∧
  optimal_contention pow_floor (mkElasticity 44 0 1.5) = Err ZeroDivisionError.
Proof.
  destruct (optimal_contention_spec pow_floor (mkElasticity 44 0.2 1)) as [Hlow _].
  destruct (optimal_contention_spec pow_floor (default_elasticity 44))
    as (_ & Hhigh & _).
  destruct (optimal_contention_spec pow_floor (mkElasticity 44 0 1.5))
    as (_ & _ & Hzero).
  split; [|split].
  - apply Hlow. by vm_compute.
  - apply Hhigh.
    + reflexivity.
    + by vm_compute.
  - apply Hzero; reflexivity.
Defined.

Lemma pow_floor_monotone : pow_monotone pow_floor.
Proof.
  assert (E : ∀ x, pow_floor x 1.5 = x) by (intros [n d]; reflexivity).
  split; intros *; rewrite ?E; lra.
Qed.

Lemma optimize_throughput_default_witness :
  ∃ r, optimize_throughput pow_floor (default_throughput_optimizer CloudInference)
         = Ok r ∧
       opt_optimal_contention r = 0.1%Q.
Proof.
  destruct (optimize_throughput_default pow_floor CloudInference
              pow_floor_monotone) as [Hfeasible _];
    [reflexivity..|].
  destruct Hfeasible as (r & Hr & Hc & _); [by vm_compute|].
  exists r. split; [exact Hr|exact Hc].
Defined.

(** ** Dictionaries *)

Section DictFacts.
Context {V : Type}.
Implicit Types (d : list (string * V)) (k : string) (v : V).

Lemma dict_get_None k d : dict_get k d = None ↔ k ∉ dict_keys d.
Proof.
  induction d as [|[k' v'] d IH]; cbn.
  - split; [intros _; apply not_elem_of_nil|done].
  - rewrite not_elem_of_cons. destruct (String.eqb_spec k k') as [->|Hne].
    + split; [done|]. intros [? _]. done.
    + rewrite IH. tauto.
Qed.

Lemma dict_get_is_Some k d : is_Some (dict_get k d) ↔ k ∈ dict_keys d.
Proof.
  rewrite <-not_eq_None_Some, dict_get_None.
  destruct (decide (k ∈ dict_keys d)); tauto.
Qed.

Lemma dict_get_elem k v d : dict_get k d = Some v → (k, v) ∈ d.
Proof.
  induction d as [|[k' v'] d IH]; cbn; [done|].
  destruct (String.eqb_spec k k') as [->|Hne].
  - intros [= ->]. left.
  - intros H. right. auto.
Qed.

Lemma dict_elem_get k v d : NoDup (dict_keys d) → (k, v) ∈ d → dict_get k d = Some v.
Proof.
  induction d as [|[k' v'] d IH]; cbn.
  - intros _ H. by apply elem_of_nil in H.
  - intros [Hk' Hnd]%NoDup_cons [[= -> ->]|Hin]%elem_of_cons.
    + by rewrite String.eqb_refl.
    + destruct (String.eqb_spec k k') as [->|Hne]; [|auto].
      destruct Hk'. apply (list_elem_of_fmap_2 fst) in Hin. exact Hin.
Qed.

Lemma dict_get_set k k' v d :
  dict_get k (dict_set k' v d) = if String.eqb k k' then Some v else dict_get k d.
Proof.
  induction d as [|[k0 v0] d IH]; cbn.
  - done.
  - destruct (String.eqb_spec k' k0) as [->|Hne]; cbn.
    + destruct (String.eqb_spec k k0); done.
    + rewrite IH. destruct (String.eqb_spec k k0) as [->|]; [|done].
      destruct (String.eqb_spec k0 k'); congruence.
Qed.

Lemma dict_set_new k v d : k ∉ dict_keys d → dict_set k v d = d ++ [(k, v)].
Proof.
  induction d as [|[k0 v0] d IH]; cbn; [done|].
  intros [Hne Hd]%not_elem_of_cons.
  destruct (String.eqb_spec k k0); [done|]. by rewrite IH.
Qed.

Lemma dict_keys_set_old k v d : k ∈ dict_keys d → dict_keys (dict_set k v d) = dict_keys d.
Proof.
  induction d as [|[k0 v0] d IH]; cbn.
  - intros H. by apply elem_of_nil in H.
  - intros Hin. destruct (String.eqb_spec k k0) as [->|Hne]; cbn; [done|].
    apply elem_of_cons in Hin as [?|Hin]; [done|].
    unfold dict_keys in IH. by rewrite IH.
Qed.

Lemma dict_keys_set_NoDup k v d :
  NoDup (dict_keys d) → NoDup (dict_keys (dict_set k v d)).
Proof.
  intros Hnd. destruct (decide (k ∈ dict_keys d)) as [Hin|Hout].
  - by rewrite dict_keys_set_old.
  - rewrite dict_set_new by done. unfold dict_keys. rewrite fmap_app. cbn.
    apply NoDup_app. split; [done|]. split; [|apply NoDup_singleton].
    intros x Hx [->|H]%elem_of_cons; [done|]. by apply elem_of_nil in H.
Qed.

Lemma dict_item_Ok k d v : dict_item k d = Ok v ↔ dict_get k d = Some v.
Proof. unfold dict_item. destruct (dict_get k d); split; congruence. Qed.
End DictFacts.

(** ** The dominance analyzer *)

Module DominanceFacts.
Import Dominance DominanceInv.

(** *** Construction *)

Lemma registry_NoDup cs : NoDup (dict_keys (registry cs)).
Proof.
  unfold registry.
  assert (H : ∀ d : list (string * Component), NoDup (dict_keys d) →
              NoDup (dict_keys (fold_left (λ d c, dict_set (name c) c d) cs d))).
  { induction cs as [|c cs IH]; intros d Hd; [done|].
    cbn. apply IH. by apply dict_keys_set_NoDup. }
  apply H. constructor.
Qed.

Lemma add_dependent_Err e rest :
  fold_left add_dependent rest (Err e) = Err e.
Proof. induction rest as [|i rest IH]; [done|]. cbn. exact IH. Qed.

Lemma build_chain_inv (K : list string) rest : ∀ seen chain chain',
  dict_keys chain = K →
  (∀ n kids k, dict_get n chain = Some kids → k ∈ kids →
     ∃ c, (k, c) ∈ seen ∧ dependency_of c = Some n) →
  (∀ n c d, (n, c) ∈ seen → dependency_of c = Some d → d ∈ K) →
  fold_left add_dependent rest (Ok chain) = Ok chain' →
  dict_keys chain' = K ∧
  (∀ n kids k, dict_get n chain' = Some kids → k ∈ kids →
     ∃ c, (k, c) ∈ seen ++ rest ∧ dependency_of c = Some n) ∧
  (∀ n c d, (n, c) ∈ seen ++ rest → dependency_of c = Some d → d ∈ K).
Proof.
  induction rest as [|[n0 c0] rest IH]; intros seen chain chain' HK Hkids Hdeps Hfold.
  - cbn in Hfold. injection Hfold as <-. rewrite app_nil_r. done.
  - cbn [fold_left] in Hfold.
    replace (seen ++ (n0, c0) :: rest) with ((seen ++ [(n0, c0)]) ++ rest)
      by (by rewrite <-app_assoc).
    unfold add_dependent at 2 in Hfold. cbn [mbind result_bind snd fst] in Hfold.
    destruct (dependency_of c0) as [d0|] eqn:Hd0.
    + unfold dict_item in Hfold.
      destruct (dict_get d0 chain) as [kids0|] eqn:Hg0;
        [|cbn in Hfold; by rewrite add_dependent_Err in Hfold].
      cbn [mbind result_bind] in Hfold.
      assert (Hin0 : d0 ∈ dict_keys chain) by (apply dict_get_is_Some; by eexists).
      apply (IH (seen ++ [(n0, c0)]) _ _
                (eq_trans (dict_keys_set_old _ _ _ Hin0) HK)) in Hfold;
        [done| |].
      * intros n kids k Hget Hk. rewrite dict_get_set in Hget.
        destruct (String.eqb_spec n d0) as [->|Hne].
        -- injection Hget as <-. apply elem_of_app in Hk as [Hk|Hk].
           ++ destruct (Hkids _ _ _ Hg0 Hk) as (c & Hc & Hdc).
              exists c. split; [|done]. apply elem_of_app. by left.
           ++ apply list_elem_of_singleton in Hk as ->.
              exists c0. split; [|done]. apply elem_of_app. right. left.
        -- destruct (Hkids _ _ _ Hget Hk) as (c & Hc & Hdc).
           exists c. split; [|done]. apply elem_of_app. by left.
      * intros n c d [Hin|Hin]%elem_of_app Hd.
        -- by eapply Hdeps.
        -- apply list_elem_of_singleton in Hin. injection Hin as -> ->.
           rewrite <-HK. congruence.
    + apply (IH (seen ++ [(n0, c0)]) _ _ HK) in Hfold; [done| |].
      * intros n kids k Hget Hk.
        destruct (Hkids _ _ _ Hget Hk) as (c & Hc & Hdc).
        exists c. split; [|done]. apply elem_of_app. by left.
      * intros n c d [Hin|Hin]%elem_of_app Hd.
        -- by eapply Hdeps.
        -- apply list_elem_of_singleton in Hin. injection Hin as -> ->.
           congruence.
Qed.

Lemma init_ok cs a :
  init cs = Ok a →
  NoDup (dict_keys (components a)) ∧ chain_ok (components a) (dependency_chain a).
Proof.
  unfold init. intros H.
  destruct (_build_dependency_chain (registry cs)) as [chain|] eqn:Hb; [|done].
  cbn in H. injection H as <-. cbn [components dependency_chain].
  split; [apply registry_NoDup|].
  unfold _build_dependency_chain in Hb.
  apply (build_chain_inv (dict_keys (registry cs)) _ []) in Hb; [done|..].
  - unfold dict_keys. rewrite <-list_fmap_compose. done.
  - intros n kids k Hget Hk. exfalso.
    assert (kids = []) as ->; [|by apply elem_of_nil in Hk].
    apply dict_get_elem, list_elem_of_fmap in Hget as ([n' c'] & [= _ ->] & _). done.
  - intros n c d Hin. by apply elem_of_nil in Hin.
Qed.

(** *** The ratio and the maximum *)

Lemma Qgt_bool_true x y : Qgt_bool x y = true ↔ (y < x)%Q.
Proof.
  unfold Qgt_bool. rewrite negb_true_iff, <-not_true_iff_false, Qle_bool_iff.
  split; [apply Qnot_le_lt|apply Qlt_not_le].
Qed.

Lemma Qgt_bool_false x y : Qgt_bool x y = false ↔ (x <= y)%Q.
Proof. unfold Qgt_bool. by rewrite negb_false_iff, Qle_bool_iff. Qed.

Lemma ratio_of_computed l d : ratio_of l d = Ok (ratio_computed l d).
Proof.
  unfold ratio_of, ratio_computed. destruct (Qgt_bool d 0) eqn:E; [|done].
  apply Qgt_bool_true in E. rewrite fdiv_nonzero; [done|]. intros H0. lra.
Qed.

(** The ratio is the quotient for a positive downstream throughput and
    infinite for any other. *)
Lemma ratio_computed_cases l d :
  ((0 < d)%Q → ratio_computed l d = Finite (l / d)) ∧
  ((d <= 0)%Q → ratio_computed l d = PInf).
Proof.
  unfold ratio_computed. split; intros H.
  - apply Qgt_bool_true in H. by rewrite H.
  - apply Qgt_bool_false in H. by rewrite H.
Qed.

Lemma xgt_trans a b c : xgt a b = true → xgt b c = true → xgt a c = true.
Proof.
  destruct a as [x|], b as [y|], c as [z|]; cbn; try done.
  rewrite !Qgt_bool_true. intros. lra.
Qed.

Lemma xgt_le_trans a b c : xgt a b = true → xgt c b = false → xgt a c = true.
Proof.
  destruct a as [x|], b as [y|], c as [z|]; cbn; try done.
  rewrite !Qgt_bool_true, Qgt_bool_false. intros. lra.
Qed.

Lemma py_max_fold {A} (key : A → xfloat) xs : ∀ l1 m l2,
  (∀ y, y ∈ l1 → xgt (key m) (key y) = true) →
  (∀ y, y ∈ l2 → xgt (key y) (key m) = false) →
  first_max key (l1 ++ m :: l2 ++ xs)
            (fold_left (λ m y, if xgt (key y) (key m) then y else m) xs m).
Proof.
  induction xs as [|y xs IH]; intros l1 m l2 H1 H2.
  - exists l1, l2. by rewrite app_nil_r.
  - cbn [fold_left]. destruct (xgt (key y) (key m)) eqn:E.
    + replace (l1 ++ m :: l2 ++ y :: xs) with ((l1 ++ m :: l2) ++ y :: [] ++ xs)
        by (by rewrite <-app_assoc).
      apply IH.
      * intros z [Hz|[->|Hz]%elem_of_cons]%elem_of_app.
        -- eapply xgt_trans; [exact E|by apply H1].
        -- exact E.
        -- eapply xgt_le_trans; [exact E|by apply H2].
      * intros z Hz. by apply elem_of_nil in Hz.
    + replace (l1 ++ m :: l2 ++ y :: xs) with (l1 ++ m :: (l2 ++ [y]) ++ xs)
        by (by rewrite <-app_assoc).
      apply IH; [done|].
      intros z [Hz|Hz]%elem_of_app; [by apply H2|].
      by apply list_elem_of_singleton in Hz as ->.
Qed.

Lemma py_max_first {A} (key : A → xfloat) l :
  l ≠ [] → ∃ m, py_max key l = Ok m ∧ first_max key l m.
Proof.
  destruct l as [|x xs]; [done|]. intros _. eexists. split; [done|].
  apply (py_max_fold key xs [] x []); intros y Hy; by apply elem_of_nil in Hy.
Qed.

Lemma collect_metrics_ok fuel a names : ∀ acc,
  NoDup (dict_keys acc ++ names) →
  (∀ n, n ∈ names → ∃ m, metrics_of fuel a n = Ok m) →
  ∃ ms, collect_metrics fuel a names acc = Ok (acc ++ ms) ∧
        dict_keys ms = names ∧
        ∀ n m, (n, m) ∈ ms → metrics_of fuel a n = Ok m.
Proof.
  induction names as [|n names IH]; intros acc Hnd Hm.
  - exists []. rewrite app_nil_r. split; [done|]. split; [done|].
    intros n m H. by apply elem_of_nil in H.
  - destruct (Hm n) as [m Hnm]; [left|].
    cbn [collect_metrics]. rewrite Hnm. cbn [mbind result_bind].
    assert (Hnew : n ∉ dict_keys acc).
    { apply NoDup_app in Hnd as (_ & Hdisj & _). intros Hin.
      apply (Hdisj n Hin). left. }
    rewrite dict_set_new by done.
    destruct (IH (acc ++ [(n, m)])) as (ms & Hms & Hkeys & Hall).
    { unfold dict_keys. rewrite fmap_app, <-app_assoc. exact Hnd. }
    { intros n' Hn'. apply Hm. by right. }
    exists ((n, m) :: ms). rewrite Hms, <-app_assoc.
    split; [done|]. split; [cbn; by rewrite <-Hkeys|].
    intros n' m' [[= -> ->]|H]%elem_of_cons; [done|by apply Hall].
Qed.

(** *** The two recursions *)

Lemma depth_bound (depth : string → nat) (l : list string) :
  ∃ B, ∀ n, n ∈ l → (depth n < B)%nat.
Proof.
  induction l as [|x l [B HB]].
  - exists 0%nat. intros n Hn. by apply elem_of_nil in Hn.
  - exists (S (Nat.max (depth x) B)). intros n [->|Hn]%elem_of_cons; [lia|].
    specialize (HB n Hn). lia.
Qed.

(** The loop [total += g(dependent)]. *)
Lemma sum_dependents (g : string → result Q) kids : ∀ t0,
  (∀ k, k ∈ kids → ∃ v, g k = Ok v) →
  ∃ v, fold_left (λ total dependent, t ← total; v ← g dependent; Ok (t + v)%Q)
                 kids (Ok t0) = Ok v ∧
       ((∀ k vk, k ∈ kids → g k = Ok vk → (0 <= vk)%Q) → (t0 <= v)%Q).
Proof.
  induction kids as [|k kids IH]; intros t0 Hg.
  - exists t0. split; [done|]. intros _. apply Qle_refl.
  - destruct (Hg k) as [vk Hvk]; [left|].
    destruct (IH (t0 + vk)%Q) as (v & Hv & Hle).
    { intros k' Hk'. apply Hg. by right. }
    exists v. cbn [fold_left mbind result_bind]. rewrite Hvk.
    cbn [mbind result_bind]. split; [exact Hv|].
    intros Hnn.
    assert (0 <= vk)%Q by (apply (Hnn k); [left|done]).
    assert (t0 + vk <= v)%Q by (apply Hle; intros k' vk' Hk'; apply Hnn; by right).
    lra.
Qed.

Section Forest.
Variables (cs : list Component) (a : DominantLatencyAnalyzer).
Variables (depth : string → nat) (B : nat).
Hypothesis Hinit : init cs = Ok a.
Hypothesis Hrank : ranked a depth.
Hypothesis HB : ∀ n, n ∈ dict_keys (components a) → (depth n < B)%nat.

Lemma downstream_terminates fuel : ∀ n c,
  dict_get n (components a) = Some c →
  (B - depth n ≤ fuel)%nat →
  ∃ v, calculate_downstream_throughput fuel a n = Ok v ∧
       (nonnegative_throughput a → (throughput_mbps c <= v)%Q).
Proof.
  destruct (init_ok cs a Hinit) as (Hnd & Hkeys & Hkids & Hdeps).
  induction fuel as [|fuel IH]; intros n c Hc Hfuel.
  - assert (depth n < B)%nat by (apply HB, dict_get_is_Some; by eexists). lia.
  - cbn [calculate_downstream_throughput].
    rewrite (proj2 (dict_item_Ok _ _ _) Hc). cbn [mbind result_bind].
    assert (Hn : n ∈ dict_keys (dependency_chain a)).
    { rewrite Hkeys. apply dict_get_is_Some. by eexists. }
    apply dict_get_is_Some in Hn as [kids Hk].
    rewrite (proj2 (dict_item_Ok _ _ _) Hk). cbn [mbind result_bind].
    assert (Hchild : ∀ k, k ∈ kids →
              ∃ ck v, dict_get k (components a) = Some ck ∧
                      calculate_downstream_throughput fuel a k = Ok v ∧
                      (nonnegative_throughput a → (throughput_mbps ck <= v)%Q)).
    { intros k Hin. destruct (Hkids n kids k Hk Hin) as (ck & Hck & Hdk).
      apply dict_elem_get in Hck; [|done].
      assert (depth n < depth k)%nat by (by eapply Hrank).
      assert (depth k < B)%nat by (apply HB, dict_get_is_Some; by eexists).
      destruct (IH k ck Hck) as (v & Hv & Hle); [lia|].
      by exists ck, v. }
    destruct (sum_dependents (calculate_downstream_throughput fuel a) kids
                (throughput_mbps c)) as (v & Hv & Hle).
    { intros k Hin. destruct (Hchild k Hin) as (_ & v & _ & Hv & _). by exists v. }
    exists v. split; [exact Hv|]. intros Hnn. apply Hle.
    intros k vk Hin Hvk. destruct (Hchild k Hin) as (ck & v' & Hck & Hv' & Hle').
    assert (v' = vk) as -> by congruence.
    pose proof (Hnn k ck Hck). pose proof (Hle' Hnn). lra.
Qed.

Lemma cumulative_terminates fuel : ∀ n c,
  dict_get n (components a) = Some c →
  (depth n < fuel)%nat →
  ∃ v, calculate_cumulative_latency fuel a n = Ok v.
Proof.
  destruct (init_ok cs a Hinit) as (Hnd & Hkeys & Hkids & Hdeps).
  induction fuel as [|fuel IH]; intros n c Hc Hfuel; [lia|].
  cbn [calculate_cumulative_latency].
  rewrite (proj2 (dict_item_Ok _ _ _) Hc). cbn [mbind result_bind].
  destruct (dependency_of c) as [d|] eqn:Hd; [|by eexists].
  assert (Hin : d ∈ dict_keys (components a)).
  { eapply Hdeps; [|done]. by apply dict_get_elem. }
  apply dict_get_is_Some in Hin as [cd Hcd].
  assert (depth d < depth n)%nat by (by eapply Hrank).
  destruct (IH d cd Hcd) as [v Hv]; [lia|].
  rewrite Hv. by eexists.
Qed.
Lemma metrics_of_ok fuel n c :
  dict_get n (components a) = Some c → (B ≤ fuel)%nat →
  ∃ m, metrics_of fuel a n = Ok m ∧
       latency m = latency_ms c ∧
       calculate_downstream_throughput fuel a n = Ok (downstream_throughput m) ∧
       calculate_cumulative_latency fuel a n = Ok (cumulative_latency m) ∧
       latency_throughput_ratio m =
         ratio_computed (latency m) (downstream_throughput m).
Proof.
  intros Hc Hfuel.
  assert (depth n < B)%nat by (apply HB, dict_get_is_Some; by eexists).
  destruct (downstream_terminates fuel n c Hc) as (dt & Hdt & _); [lia|].
  destruct (cumulative_terminates fuel n c Hc) as (cl & Hcl); [lia|].
  exists (mkMetrics (latency_ms c) cl dt (ratio_computed (latency_ms c) dt)).
  unfold metrics_of. rewrite (proj2 (dict_item_Ok _ _ _) Hc).
  cbn [mbind result_bind]. rewrite Hdt. cbn [mbind result_bind].
  rewrite ratio_of_computed. cbn [mbind result_bind]. rewrite Hcl. done.
Qed.

End Forest.

(** *** More recursion depth changes no result *)

Lemma cumulative_unfold fuel a n :
  calculate_cumulative_latency (S fuel) a n =
    (comp ← dict_item n (components a);
     match dependency_of comp with
     | None => Ok (latency_ms comp)
     | Some d =>
         up ← calculate_cumulative_latency fuel a d;
         Ok (latency_ms comp + up)%Q
     end).
Proof. reflexivity. Qed.

Lemma downstream_unfold fuel a n :
  calculate_downstream_throughput (S fuel) a n =
    (comp ← dict_item n (components a);
     kids ← dict_item n (dependency_chain a);
     fold_left
       (λ total dependent,
          t ← total;
          v ← calculate_downstream_throughput fuel a dependent;
          Ok (t + v)%Q)
       kids (Ok (throughput_mbps comp))).
Proof. reflexivity. Qed.

Lemma cumulative_fuel_S a fuel : ∀ n v,
  calculate_cumulative_latency fuel a n = Ok v →
  calculate_cumulative_latency (S fuel) a n = Ok v.
Proof.
  induction fuel as [|fuel IH]; intros n v H; [discriminate H|].
  rewrite cumulative_unfold in *.
  destruct (dict_item n (components a)) as [comp|]; [|done].
  cbn [mbind result_bind] in *.
  destruct (dependency_of comp) as [d|]; [|done].
  destruct (calculate_cumulative_latency fuel a d) as [up|] eqn:Hup; [|done].
  by rewrite (IH d up Hup).
Qed.

Lemma sum_dependents_ext (g1 g2 : string → result Q) kids : ∀ acc v,
  (∀ k vk, k ∈ kids → g1 k = Ok vk → g2 k = Ok vk) →
  fold_left (λ total dependent, t ← total; v ← g1 dependent; Ok (t + v)%Q)
            kids acc = Ok v →
  fold_left (λ total dependent, t ← total; v ← g2 dependent; Ok (t + v)%Q)
            kids acc = Ok v.
Proof.
  induction kids as [|k kids IH]; intros acc v Hg H; [done|].
  cbn [fold_left] in *.
  destruct acc as [t|e].
  - cbn [mbind result_bind] in *.
    destruct (g1 k) as [vk|e] eqn:Hk.
    + rewrite (Hg k vk) by (done || left). cbn [mbind result_bind] in *.
      eapply IH; [|exact H]. intros k' vk' Hin. apply Hg. by right.
    + exfalso. clear -H. cbn [mbind result_bind] in H.
      induction kids as [|k' kids IHk]; [done|]. cbn in H. auto.
  - exfalso. clear -H. cbn [mbind result_bind] in H.
    induction kids as [|k' kids IHk]; [done|]. cbn in H. auto.
Qed.

Lemma downstream_fuel_S a fuel : ∀ n v,
  calculate_downstream_throughput fuel a n = Ok v →
  calculate_downstream_throughput (S fuel) a n = Ok v.
Proof.
  induction fuel as [|fuel IH]; intros n v H; [discriminate H|].
  rewrite downstream_unfold in *.
  destruct (dict_item n (components a)) as [comp|]; [|done].
  cbn [mbind result_bind] in *.
  destruct (dict_item n (dependency_chain a)) as [kids|]; [|done].
  cbn [mbind result_bind] in *.
  eapply sum_dependents_ext; [|exact H]. intros k vk _. apply IH.
Qed.

Lemma cumulative_fuel_le a n v fuel fuel' :
  (fuel ≤ fuel')%nat →
  calculate_cumulative_latency fuel a n = Ok v →
  calculate_cumulative_latency fuel' a n = Ok v.
Proof.
  intros Hle. induction Hle as [|fuel' _ IH]; [done|].
  intros Hv. by apply cumulative_fuel_S, IH.
Qed.

Lemma downstream_fuel_le a n v fuel fuel' :
  (fuel ≤ fuel')%nat →
  calculate_downstream_throughput fuel a n = Ok v →
  calculate_downstream_throughput fuel' a n = Ok v.
Proof.
  intros Hle. induction Hle as [|fuel' _ IH]; [done|].
  intros Hv. by apply downstream_fuel_S, IH.
Qed.

Lemma metrics_of_fuel_le a n m fuel fuel' :
  (fuel ≤ fuel')%nat →
  metrics_of fuel a n = Ok m → metrics_of fuel' a n = Ok m.
Proof.
  intros Hle. unfold metrics_of.
  destruct (dict_item n (components a)) as [comp|]; [|done].
  cbn [mbind result_bind].
  destruct (calculate_downstream_throughput fuel a n) as [dt|] eqn:Hdt; [|done].
  rewrite (downstream_fuel_le a n dt fuel fuel' Hle Hdt).
  cbn [mbind result_bind].
  destruct (ratio_of (latency_ms comp) dt) as [r|]; [|done].
  cbn [mbind result_bind].
  destruct (calculate_cumulative_latency fuel a n) as [cl|] eqn:Hcl; [|done].
  by rewrite (cumulative_fuel_le a n cl fuel fuel' Hle Hcl).
Qed.

Lemma collect_metrics_fuel_le a fuel fuel' names : ∀ acc ms,
  (fuel ≤ fuel')%nat →
  collect_metrics fuel a names acc = Ok ms →
  collect_metrics fuel' a names acc = Ok ms.
Proof.
  induction names as [|n names IH]; intros acc ms Hle H; [done|].
  cbn [collect_metrics] in *.
  destruct (metrics_of fuel a n) as [m|] eqn:Hm; [|done].
  rewrite (metrics_of_fuel_le a n m fuel fuel' Hle Hm).
  cbn [mbind result_bind] in *. by apply IH.
Qed.

Lemma identify_dominant_source_fuel_le a r fuel fuel' :
  (fuel ≤ fuel')%nat →
  identify_dominant_source fuel a = Ok r →
  identify_dominant_source fuel' a = Ok r.
Proof.
  intros Hle. unfold identify_dominant_source.
  destruct (collect_metrics fuel a _ []) as [ms|] eqn:Hms; [|done].
  by rewrite (collect_metrics_fuel_le a fuel fuel' _ [] ms Hle Hms).
Qed.

(** *** Downstream throughput *)

(** C9, as the code has it.  In a forest whose components all have a
    throughput that is not negative, the downstream throughput of a
    component is computed (given enough recursion depth) and is at least
    the component's own throughput. *)
Theorem downstream_at_least_own cs a n c :
  init cs = Ok a → acyclic a → nonnegative_throughput a →
  dict_get n (components a) = Some c →
  ∃ fuel0 v,
    (∀ fuel, (fuel0 ≤ fuel)%nat →
       calculate_downstream_throughput fuel a n = Ok v) ∧
    (throughput_mbps c <= v)%Q.
Proof.
  intros Hinit [depth Hrank] Hnn Hc.
  destruct (depth_bound depth (dict_keys (components a))) as [B HB].
  destruct (downstream_terminates cs a depth B Hinit Hrank HB B n c Hc)
    as (v & Hv & Hle); [lia|].
  exists B, v. split; [|by apply Hle].
  intros fuel Hfuel. by apply (downstream_fuel_le a n v B fuel).
Qed.

(** *** The dominant source *)

(** C1, as the code has it.  On a registry that is not empty and forms a
    forest, [identify_dominant_source] returns (given enough recursion
    depth) one metrics record per component, in registry order, whose ratio
    is latency / downstream throughput when the downstream throughput is
    positive and infinite when it is zero or negative; the dominant
    component is the first one in registry order with the greatest ratio. *)
Theorem identify_dominant_source_spec cs a :
  init cs = Ok a → components a ≠ [] → acyclic a →
  ∃ fuel0 dominant metrics,
    (∀ fuel, (fuel0 ≤ fuel)%nat →
       identify_dominant_source fuel a = Ok (dominant, metrics)) ∧
    dict_keys metrics = dict_keys (components a) ∧
    (∀ n m, (n, m) ∈ metrics →
       ∃ c, dict_get n (components a) = Some c ∧
            latency m = latency_ms c ∧
            (∀ fuel, (fuel0 ≤ fuel)%nat →
               calculate_downstream_throughput fuel a n
                 = Ok (downstream_throughput m)) ∧
            ((0 < downstream_throughput m)%Q →
               latency_throughput_ratio m
                 = Finite (latency m / downstream_throughput m)) ∧
            ((downstream_throughput m <= 0)%Q →
               latency_throughput_ratio m = PInf)) ∧
    ∃ m, first_max (λ x, latency_throughput_ratio x.2) metrics (dominant, m).
Proof.
  intros Hinit Hne [depth Hrank].
  destruct (depth_bound depth (dict_keys (components a))) as [B HB].
  destruct (init_ok cs a Hinit) as (Hnd & _).
  destruct (collect_metrics_ok B a (dict_keys (components a)) [])
    as (ms & Hms & Hkeys & Hall); [done| |].
  { intros n [c Hc]%dict_get_is_Some.
    destruct (metrics_of_ok cs a depth B Hinit Hrank HB B n c Hc (le_n B))
      as (m & Hm & _). by exists m. }
  cbn [app] in Hms.
  assert (Hms_ne : ms ≠ []).
  { intros ->. cbn in Hkeys. destruct (components a); [done|discriminate Hkeys]. }
  destruct (py_max_first (λ x : string * Metrics, latency_throughput_ratio x.2)
              ms Hms_ne) as ([dn dm] & Hmax & Hfirst).
  exists B, dn, ms. split.
  { intros fuel Hfuel. apply (identify_dominant_source_fuel_le a _ B fuel Hfuel).
    unfold identify_dominant_source.
    rewrite Hms. cbn [mbind result_bind]. rewrite Hmax. done. }
  split; [done|]. split; [|by exists dm].
  intros n m Hin.
  assert (Hn : n ∈ dict_keys (components a)).
  { rewrite <-Hkeys. apply (list_elem_of_fmap_2 fst) in Hin. exact Hin. }
  apply dict_get_is_Some in Hn as [c Hc].
  destruct (metrics_of_ok cs a depth B Hinit Hrank HB B n c Hc (le_n B))
    as (m' & Hm' & Hlat & Hdt & _ & Hratio).
  assert (m' = m) as -> by (pose proof (Hall n m Hin); congruence).
  exists c. do 2 (split; [done|]). split.
  { intros fuel Hfuel. by apply (downstream_fuel_le a n _ B fuel). }
  rewrite Hratio. apply ratio_computed_cases.
Qed.

End DominanceFacts.

Module DominanceExampleFacts.
Import Dominance DominanceInv DominanceExamples DominanceFacts.

Lemma reference_init : init reference_components = Ok reference_analyzer.
Proof. by vm_compute. Qed.

Lemma reference_ranked : ranked reference_analyzer reference_depth.
Proof.
  intros n c d Hc Hd. by_cases_on_key Hc; try discriminate Hc;
    injection Hc as <-; vm_compute in Hd; try discriminate Hd;
    injection Hd as <-; vm_compute; lia.
Qed.

Lemma reference_nonnegative : nonnegative_throughput reference_analyzer.
Proof.
  intros n c Hc. by_cases_on_key Hc; try discriminate Hc;
    injection Hc as <-; by vm_compute.
Qed.

Lemma downstream_at_least_own_witness :
  ∃ fuel0 v,
    (∀ fuel, (fuel0 ≤ fuel)%nat →
       calculate_downstream_throughput fuel reference_analyzer "AuthCore" = Ok v) ∧
    (520 <= v)%Q.
Proof.
  apply (downstream_at_least_own reference_components reference_analyzer
           "AuthCore" AuthCore reference_init
           (ex_intro _ reference_depth reference_ranked)
           reference_nonnegative).
  reflexivity.
Defined.

(** C9 as stated fails when a descendant has a negative throughput. *)
Lemma downstream_below_own :
  init [Feed; Sink] = Ok leaking_analyzer ∧
  acyclic leaking_analyzer ∧
  (∀ fuel, (2 ≤ fuel)%nat →
     calculate_downstream_throughput fuel leaking_analyzer "Feed" = Ok 95%Q) ∧
  ¬ (throughput_mbps Feed <= 95)%Q.
Proof.
  split; [by vm_compute|]. split; [|split].
  - exists (λ n, if String.eqb n "Feed" then 0 else 1)%nat.
    intros n c d Hc Hd. by_cases_on_key Hc; try discriminate Hc;
      injection Hc as <-; vm_compute in Hd; try discriminate Hd;
      injection Hd as <-; vm_compute; lia.
  - intros [|[|fuel]] Hfuel; [lia..|]. reflexivity.
  - by vm_compute.
Qed.

Lemma identify_dominant_source_spec_witness :
  ∃ fuel0 dominant metrics,
    (∀ fuel, (fuel0 ≤ fuel)%nat →
       identify_dominant_source fuel reference_analyzer = Ok (dominant, metrics)) ∧
    dict_keys metrics = dict_keys (components reference_analyzer).
Proof.
  destruct (identify_dominant_source_spec reference_components reference_analyzer
              reference_init) as (fuel0 & dominant & metrics & Hrun & Hkeys & _).
  - by vm_compute.
  - exists reference_depth. exact reference_ranked.
  - by exists fuel0, dominant, metrics.
Defined.

(** An empty registry: [max] has nothing to choose from. *)
Example empty_registry_raises fuel :
  init [] = Ok (mk [] []) ∧
  identify_dominant_source fuel (mk [] []) = Err ValueError.
Proof. done. Qed.

Example reference_dominant :
  (r ← identify_dominant_source 5 reference_analyzer; Ok r.1)
  = Ok "CloudInference"%string.
Proof. by vm_compute. Qed.

(** Equal ratios: the component registered first is the dominant one. *)
Example tie_goes_to_first :
  (r ← identify_dominant_source 3
         (analyzer_of [mkComponent "Alpha" 10 1 1 10 99 10 None [];
                       mkComponent "Beta" 10 1 2 20 99 10 None []]);
   Ok r.1) = Ok "Alpha"%string ∧
  (r ← identify_dominant_source 3
         (analyzer_of [mkComponent "Beta" 10 1 2 20 99 10 None [];
                       mkComponent "Alpha" 10 1 1 10 99 10 None []]);
   Ok r.1) = Ok "Beta"%string.
Proof. split; by vm_compute. Qed.

(** C1 as stated fails on a negative downstream throughput: the code makes
    the ratio infinite there too, so [Drain] is dominant although its
    latency / downstream throughput, -2, is below that of [Feed]. *)
Lemma dominant_with_negative_throughput :
  init [Feed; Drain] = Ok draining_analyzer ∧
  acyclic draining_analyzer ∧
  (∀ fuel, (1 ≤ fuel)%nat →
     identify_dominant_source fuel draining_analyzer =
       Ok ("Drain"%string,
           [("Feed"%string, mkMetrics 1 1 100 (Finite 0.01));
            ("Drain"%string, mkMetrics 10 10 (-5) PInf)])) ∧
  ratio_as_specified 10 (-5) = Finite (10 / -5) ∧
  ratio_as_specified 1 100 = Finite 0.01 ∧
  xgt (ratio_as_specified 1 100) (ratio_as_specified 10 (-5)) = true.
Proof.
  split; [by vm_compute|]. split; [|split].
  - exists (λ _, 0%nat). intros n c d Hc Hd.
    by_cases_on_key Hc; try discriminate Hc; injection Hc as <-; discriminate Hd.
  - intros [|fuel] Hfuel; [lia|]. reflexivity.
  - by vm_compute.
Qed.

End DominanceExampleFacts.

(** * Further properties *)

(** ** The agreement simulator *)

Module ConsensusMoreFacts.
Import Consensus ConsensusInv ConsensusMore ConsensusFacts.

Lemma run_app s cs1 cs2 :
  (run s (cs1 ++ cs2)).2 = (run (run s cs1).2 cs2).2.
Proof.
  revert s. induction cs1 as [|c cs1 IH]; intros s; [done|].
  cbn [app]. rewrite !run_cons. cbn [snd]. apply IH.
Qed.

Lemma step_config s c :
  dominant_component (step s c).2 = dominant_component s ∧
  quorum_size (step s c).2 = quorum_size s ∧
  promises (step s c).2 = promises s.
Proof.
  destruct c as [r d|r n t|r]; cbn [step].
  - done.
  - unfold promise. by repeat case_match.
  - unfold accept. by repeat case_match.
Qed.

Lemma run_keeps_configuration_aux cs : ∀ s,
  dominant_component (run s cs).2 = dominant_component s ∧
  quorum_size (run s cs).2 = quorum_size s ∧
  promises (run s cs).2 = promises s.
Proof.
  induction cs as [|c cs IH]; intros s; [done|].
  rewrite run_cons. cbn [snd].
  destruct (IH (step s c).2) as (-> & -> & ->). apply step_config.
Qed.

(** X1. no call writes the target, the quorum size or the [promises] map:
    after any calls on a new simulator they are what the constructor set,
    the [promises] map still empty. *)
Theorem run_keeps_configuration dominant quorum cs :
  dominant_component (run (init dominant quorum) cs).2 = dominant ∧
  quorum_size (run (init dominant quorum) cs).2 = quorum ∧
  promises (run (init dominant quorum) cs).2 = ∅.
Proof. apply (run_keeps_configuration_aux cs (init dominant quorum)). Qed.

Lemma init_stamped dominant quorum : stamped (init dominant quorum).
Proof. split; [done|]. intros i p H. by destruct i. Qed.

Lemma step_stamped s c : stamped s → stamped (step s c).2.
Proof.
  intros [Hts Hobj]. destruct c as [r d|r n t|r]; cbn [step].
  - split; cbn.
    + rewrite length_app. cbn. lia.
    + intros i p Hi. apply lookup_app_Some in Hi as [Hi|[Hge Hi]]; [by apply Hobj|].
      apply list_lookup_singleton_Some in Hi as [Hi <-]. cbn. lia.
  - unfold promise.
    destruct (proposals s !! r) as [l|]; [|done].
    destruct (objects s !! l) as [p0|] eqn:Hp0; [|done].
    destruct (t <? _); [|done]. split; cbn.
    + by rewrite length_insert.
    + intros i p Hi. apply list_lookup_insert_Some in Hi as [(-> & <- & _)|[_ Hi]].
      * cbn. by apply Hobj.
      * by apply Hobj.
  - unfold accept.
    destruct (proposals s !! r) as [l|]; [|done].
    destruct (objects s !! l) as [p0|] eqn:Hp0; [|done].
    destruct (_ <=? _); [|done]. split; cbn.
    + by rewrite length_insert.
    + intros i p Hi. apply list_lookup_insert_Some in Hi as [(-> & <- & _)|[_ Hi]].
      * cbn. by apply Hobj.
      * by apply Hobj.
Qed.

Lemma run_stamped cs : ∀ s, stamped s → stamped (run s cs).2.
Proof.
  induction cs as [|c cs IH]; intros s Hs; [done|].
  rewrite run_cons. cbn [snd]. by apply IH, step_stamped.
Qed.

Lemma run_length cs : ∀ s,
  length (objects (run s cs).2) = (length (objects s) + length (filter is_prepare cs))%nat.
Proof.
  induction cs as [|c cs IH]; intros s; [cbn; lia|].
  rewrite run_cons. cbn [snd]. rewrite IH.
  destruct c as [r d|r n t|r]; cbn [step].
  - rewrite filter_cons_True by done. cbn. rewrite length_app. cbn. lia.
  - rewrite filter_cons_False by (by intros ?).
    unfold promise. repeat case_match; cbn; rewrite ?length_insert; lia.
  - rewrite filter_cons_False by (by intros ?).
    unfold accept. repeat case_match; cbn; rewrite ?length_insert; lia.
Qed.

Lemma timestamps_bounds dominant quorum cs r p :
  proposal_record (run (init dominant quorum) cs).2 r = Some p →
  1 ≤ Proposal.timestamp p ≤ current_timestamp (run (init dominant quorum) cs).2.
Proof.
  pose proof (run_stamped cs _ (init_stamped dominant quorum)) as [Hts Hobj].
  set (s := (run (init dominant quorum) cs).2) in *.
  intros Hp. unfold proposal_record in Hp.
  destruct (proposals s !! r) as [l|]; [|done]. cbn in Hp.
  pose proof (lookup_lt_Some _ _ _ Hp). rewrite (Hobj _ _ Hp), Hts. lia.
Qed.

(** X2. on a new simulator the counter is the number of [prepare] calls
    made; every proposal's timestamp lies between 1 and the counter; and
    the proposals of two different requests never share a timestamp. *)
Theorem timestamps_fresh dominant quorum cs :
  current_timestamp (run (init dominant quorum) cs).2
    = Z.of_nat (length (filter is_prepare cs)) ∧
  (∀ r p, proposal_record (run (init dominant quorum) cs).2 r = Some p →
     1 ≤ Proposal.timestamp p ≤ current_timestamp (run (init dominant quorum) cs).2) ∧
  (∀ r1 r2 p1 p2,
     proposal_record (run (init dominant quorum) cs).2 r1 = Some p1 →
     proposal_record (run (init dominant quorum) cs).2 r2 = Some p2 →
     Proposal.timestamp p1 = Proposal.timestamp p2 → r1 = r2).
Proof.
  split; [|split; [apply timestamps_bounds|]].
  - pose proof (run_stamped cs _ (init_stamped dominant quorum)) as [Hts _].
    rewrite Hts, run_length. done.
  - pose proof (run_stamped cs _ (init_stamped dominant quorum)) as [_ Hobj].
    pose proof (run_wf cs _ (init_wf dominant quorum)) as [_ Hu].
    set (s := (run (init dominant quorum) cs).2) in *.
    intros r1 r2 p1 p2 H1 H2 Heq. unfold proposal_record in *.
    destruct (proposals s !! r1) as [l1|] eqn:E1; [|done].
    destruct (proposals s !! r2) as [l2|] eqn:E2; [|done].
    cbn in H1, H2. rewrite (Hobj _ _ H1), (Hobj _ _ H2) in Heq.
    assert (l1 = l2) as -> by lia.
    apply (Hu r1 r2 l2); by left.
Qed.

(** X3. on a new simulator every known request has a timestamp of at least
    1 and at most the counter, so [promise] with a [last_timestamp] of 0
    or less is always granted and one with the current counter or more is
    always refused. *)
Theorem promise_by_counter dominant quorum cs r node last :
  is_Some (proposals (run (init dominant quorum) cs).2 !! r) →
  (last ≤ 0 → (promise (run (init dominant quorum) cs).2 r node last).1 = true) ∧
  (current_timestamp (run (init dominant quorum) cs).2 ≤ last →
     promise (run (init dominant quorum) cs).2 r node last
       = (false, (run (init dominant quorum) cs).2)).
Proof.
  pose proof (run_wf cs _ (init_wf dominant quorum)) as [Hb _].
  pose proof (timestamps_bounds dominant quorum cs) as Hrange.
  set (s := (run (init dominant quorum) cs).2) in *.
  intros [l Hl].
  assert (Hlt : (l < length (objects s))%nat) by (apply (Hb r); by left).
  destruct (lookup_lt_is_Some_2 _ _ Hlt) as [p Hp].
  assert (Hr : 1 ≤ Proposal.timestamp p ≤ current_timestamp s).
  { apply (Hrange r). unfold proposal_record. by rewrite Hl. }
  rewrite (promise_known s r node last l p Hl Hp). split; intros Hlast.
  - destruct (Z.ltb_spec last (Proposal.timestamp p)); [done|lia].
  - destruct (Z.ltb_spec last (Proposal.timestamp p)); [lia|done].
Qed.

Lemma promise_by_counter_witness :
  (promise demo "req_001" "node3" 0).1 = true ∧
  promise demo "req_001" "node3" 1 = (false, demo).
Proof.
  destruct (promise_by_counter "CloudInference" 2 demo_calls "req_001" "node3" 0)
    as [Hgrant _]; [by eexists|].
  destruct (promise_by_counter "CloudInference" 2 demo_calls "req_001" "node3" 1)
    as [_ Hrefuse]; [by eexists|].
  split; [by apply Hgrant|by apply Hrefuse].
Defined.

Lemma init_counted dominant quorum : counted (init dominant quorum).
Proof.
  split.
  - intros l p H. by destruct l.
  - intros r l p H. cbn in H. by rewrite lookup_empty in H.
Qed.

Lemma step_counted s c : wf s → counted s → counted (step s c).2.
Proof.
  intros [Hb Hu] [Hobj Hacc]. destruct c as [r d|r n t|r]; cbn [step].
  - split; cbn.
    + intros l p Hl. apply lookup_app_Some in Hl as [Hl|[_ Hl]]; [by eapply Hobj|].
      apply list_lookup_singleton_Some in Hl as [_ <-]. cbn. lia.
    + intros r' l p Hr' Hl.
      assert (l < length (objects s))%nat by (apply (Hb r'); by right).
      rewrite lookup_app_l in Hl by done. by eapply Hacc.
  - unfold promise.
    destruct (proposals s !! r) as [l0|]; [|done].
    destruct (objects s !! l0) as [p0|] eqn:Hp0; [|done].
    destruct (t <? _); [|done]. split; cbn.
    + intros l p Hl. apply list_lookup_insert_Some in Hl as [(-> & <- & _)|[_ Hl]].
      * pose proof (Hobj _ _ Hp0). cbn. lia.
      * by eapply Hobj.
    + intros r' l p Hr' Hl.
      apply list_lookup_insert_Some in Hl as [(-> & <- & _)|[_ Hl]].
      * cbn. by eapply Hacc.
      * by eapply Hacc.
  - unfold accept.
    destruct (proposals s !! r) as [l0|] eqn:Hl0; [|done].
    destruct (objects s !! l0) as [p0|] eqn:Hp0; [|done].
    destruct (Z.leb_spec (quorum_size s) (Proposal.promises p0)); [|done].
    split; cbn.
    + intros l p Hl. apply list_lookup_insert_Some in Hl as [(-> & <- & _)|[_ Hl]].
      * pose proof (Hobj _ _ Hp0). cbn. lia.
      * by eapply Hobj.
    + intros r' l p Hr' Hl.
      apply list_lookup_insert_Some in Hl as [(-> & <- & _)|[Hne Hl]].
      * cbn. lia.
      * apply lookup_insert_Some in Hr' as [[-> ->]|[_ Hr']]; [done|].
        by eapply Hacc.
Qed.

Lemma run_counted cs : ∀ s, wf s → counted s → counted (run s cs).2.
Proof.
  induction cs as [|c cs IH]; intros s Hwf Hc; [done|].
  rewrite run_cons. cbn [snd]. apply IH; [by apply step_wf|by apply step_counted].
Qed.

(** X4. on a new simulator, whatever calls are made, every proposal has
    0 <= accepts <= promises, and the record [learn] would return for an
    accepted request has an accept count of at least the quorum size. *)
Theorem counts_in_order dominant quorum cs :
  (∀ r p, proposal_record (run (init dominant quorum) cs).2 r = Some p →
     0 ≤ Proposal.accepts p ≤ Proposal.promises p) ∧
  (∀ r p, accepted_record (run (init dominant quorum) cs).2 r = Some p →
     quorum ≤ Proposal.accepts p ≤ Proposal.promises p).
Proof.
  pose proof (run_counted cs _ (init_wf dominant quorum)
                (init_counted dominant quorum)) as [Hobj Hacc].
  destruct (run_keeps_configuration_aux cs (init dominant quorum)) as (_ & Hq & _).
  set (s := (run (init dominant quorum) cs).2) in *. cbn in Hq.
  split.
  - intros r p Hp. unfold proposal_record in Hp.
    destruct (proposals s !! r) as [l|]; [|done]. by eapply Hobj.
  - intros r p Hp. unfold accepted_record in Hp.
    destruct (accepted s !! r) as [l|] eqn:Hl; [|done]. cbn in Hp.
    pose proof (Hobj _ _ Hp). pose proof (Hacc _ _ _ Hl Hp). lia.
Qed.

(** X5. [accept] is idempotent: a second [accept] on the same request gives
    the same answer and leaves the state as the first one left it. *)
Theorem accept_idempotent s r :
  accept (accept s r).2 r = accept s r.
Proof.
  destruct (proposals s !! r) as [l|] eqn:Hl;
    [|unfold accept at 2 3; rewrite Hl; cbn; unfold accept; by rewrite Hl].
  destruct (objects s !! l) as [p|] eqn:Hp;
    [|unfold accept at 2 3; rewrite Hl, Hp; cbn; unfold accept; by rewrite Hl, Hp].
  assert (Hlt : (l < length (objects s))%nat) by (eapply lookup_lt_Some; eauto).
  rewrite !(accept_known s r l p Hl Hp).
  destruct (quorum_size s <=? Proposal.promises p) eqn:Hq;
    [|cbn; by rewrite (accept_known s r l p Hl Hp), Hq].
  cbn [snd].
  erewrite (accept_known _ r l (Proposal.set_accepts p));
    [|exact Hl|by apply list_lookup_insert_eq].
  cbn. rewrite Hq. f_equal. f_equal.
  - by rewrite insert_insert_eq.
  - by rewrite list_insert_insert_eq.
Qed.

Lemma step_learn_is_Some s c r :
  wf s → is_Some (learn s r) → is_Some (learn (step s c).2 r).
Proof.
  intros Hwf [v Hv]. unfold learn in *.
  destruct (accepted s !! r) as [l|] eqn:Hl; [|done]. cbn in Hv.
  destruct (objects s !! l) as [p|] eqn:Hp; [|done].
  destruct (step_object_stable s c l p Hp) as (p' & Hp' & _).
  assert (Hacc : is_Some (accepted (step s c).2 !! r)).
  { apply step_accepted. left. by eexists. }
  destruct Hacc as [l' Hl']. rewrite Hl'. cbn.
  pose proof (step_wf s c Hwf) as [Hb _].
  assert (Hlt : (l' < length (objects (step s c).2))%nat) by (apply (Hb r); by right).
  destruct (lookup_lt_is_Some_2 _ _ Hlt) as [q Hq]. rewrite Hq. by eexists.
Qed.

(** X6. an accepted request stays accepted: once [learn] has a value for a
    request, it has one after any further calls. *)
Theorem learn_persistent s cs r :
  wf s → is_Some (learn s r) → is_Some (learn (run s cs).2 r).
Proof.
  revert s. induction cs as [|c cs IH]; intros s Hwf Hl; [done|].
  rewrite run_cons. cbn [snd].
  apply IH; [by apply step_wf|by apply step_learn_is_Some].
Qed.

Lemma learn_persistent_witness :
  is_Some (learn (run demo [Prepare "req_001" VNone; Accept "req_001"]).2 "req_001").
Proof.
  apply (learn_persistent demo [Prepare "req_001" VNone; Accept "req_001"]
           "req_001" demo_wf).
  vm_compute. by eexists.
Defined.

(** X7. [prepare] always succeeds and starts the request afresh: its
    proposal is a new record with the next timestamp, the payload given and
    no promises or accepts (so with a positive quorum [accept] now fails),
    while the other requests' proposals and everything [learn] returns,
    also for the same request, are as before. *)
Theorem prepare_resets s r d :
  wf s →
  (prepare s r d).1 = true ∧
  proposal_record (prepare s r d).2 r
    = Some (Proposal.mk (current_timestamp s + 1) d 0 0) ∧
  (∀ r', r' ≠ r → proposal_record (prepare s r d).2 r' = proposal_record s r') ∧
  (∀ r', learn (prepare s r d).2 r' = learn s r') ∧
  (0 < quorum_size s → accept (prepare s r d).2 r = (false, (prepare s r d).2)).
Proof.
  intros [Hb _].
  assert (Hnew : proposal_record (prepare s r d).2 r
                 = Some (Proposal.mk (current_timestamp s + 1) d 0 0)).
  { unfold proposal_record. cbn. rewrite lookup_insert_eq. cbn.
    rewrite lookup_app_r by done. by rewrite Nat.sub_diag. }
  split; [done|]. split; [exact Hnew|]. split; [|split].
  - intros r' Hne. unfold proposal_record. cbn.
    rewrite lookup_insert_ne by done.
    destruct (proposals s !! r') as [l|] eqn:Hl; [|done]. cbn.
    apply lookup_app_l, (Hb r'). by left.
  - intros r'. unfold learn. cbn.
    destruct (accepted s !! r') as [l|] eqn:Hl; [|done]. cbn.
    rewrite lookup_app_l; [done|]. apply (Hb r'). by right.
  - intros Hq. unfold proposal_record in Hnew.
    destruct (proposals (prepare s r d).2 !! r) as [l|] eqn:Hl; [|done].
    cbn [mbind option_bind] in Hnew.
    apply (accept_below _ r l _ Hl Hnew). cbn. lia.
Qed.

Lemma prepare_resets_witness :
  learn (prepare demo "req_001" VNone).2 "req_001" = learn demo "req_001" ∧
  accept (prepare demo "req_001" VNone).2 "req_001"
    = (false, (prepare demo "req_001" VNone).2).
Proof.
  destruct (prepare_resets demo "req_001" VNone demo_wf)
    as (_ & _ & _ & Hlearn & Haccept).
  split; [apply Hlearn|apply Haccept; reflexivity].
Defined.

Lemma step_proposals_unprepared s c r :
  prepares r c = false → proposals (step s c).2 !! r = proposals s !! r.
Proof.
  intros Hc. destruct c as [r0 d|r0 n t|r0]; cbn [step prepares] in *.
  - apply String.eqb_neq in Hc. cbn. by rewrite lookup_insert_ne.
  - unfold promise. by repeat case_match.
  - unfold accept. by repeat case_match.
Qed.

Lemma run_proposals_unprepared cs : ∀ s r,
  forallb (λ c, negb (prepares r c)) cs = true →
  proposals (run s cs).2 !! r = proposals s !! r.
Proof.
  induction cs as [|c cs IH]; intros s r Hcs; [done|].
  cbn [forallb] in Hcs. apply andb_prop in Hcs as [Hc Hcs].
  apply negb_true_iff in Hc.
  rewrite run_cons. cbn [snd]. rewrite IH by done.
  by apply step_proposals_unprepared.
Qed.

(** X8. a quorum is never lost: once [accept] succeeds on a request it
    succeeds again after any further calls, as long as the request is not
    prepared anew. *)
Theorem accept_stays s cs r :
  wf s → (accept s r).1 = true →
  forallb (λ c, negb (prepares r c)) cs = true →
  (accept (run s cs).2 r).1 = true.
Proof.
  intros Hwf Hacc Hcs.
  destruct (proposals s !! r) as [l|] eqn:Hl;
    [|unfold accept in Hacc; by rewrite Hl in Hacc].
  destruct (objects s !! l) as [p|] eqn:Hp;
    [|unfold accept in Hacc; by rewrite Hl, Hp in Hacc].
  rewrite (accept_known s r l p Hl Hp) in Hacc.
  destruct (Z.leb_spec (quorum_size s) (Proposal.promises p)); [|done].
  assert (Hown : owned s r l).
  { intros r' Hr'. destruct Hwf as [_ Hu]. eapply Hu; [done|by left]. }
  destruct (run_object cs s r l p Hown Hp) as (p' & Hp' & _ & _ & Hpr & _).
  pose proof (run_proposals_unprepared cs s r Hcs) as Hl'. rewrite Hl in Hl'.
  destruct (run_keeps_configuration_aux cs s) as (_ & Hq & _).
  rewrite (accept_known _ r l p' Hl' Hp'), Hq.
  destruct (Z.leb_spec (quorum_size s) (Proposal.promises p')); [done|lia].
Qed.

Lemma accept_stays_witness :
  (accept (run demo [Promise "req_001" "node1" 7; Prepare "req_002" VNone;
                     Accept "req_002"]).2 "req_001").1 = true.
Proof.
  apply (accept_stays demo [Promise "req_001" "node1" 7; Prepare "req_002" VNone;
                            Accept "req_002"] "req_001" demo_wf);
    by vm_compute.
Defined.

End ConsensusMoreFacts.

(** ** The dominance analyzer *)

Module DominanceMoreFacts.
Import Dominance DominanceInv DominanceExamples DominanceMore DominanceFacts.

(** *** The registry *)

Lemma registry_fold_get n cs : ∀ d : list (string * Component),
  dict_get n (fold_left (λ d c, dict_set (name c) c d) cs d) =
    match last (filter (λ c, name c = n) cs) with
    | Some c => Some c
    | None => dict_get n d
    end.
Proof.
  induction cs as [|c cs IH]; intros d; [done|].
  cbn [fold_left]. rewrite IH, dict_get_set.
  destruct (decide (name c = n)) as [E|E].
  - rewrite filter_cons_True by done.
    destruct (filter (λ c, name c = n) cs) as [|c' l] eqn:Hf.
    + cbn. apply String.eqb_eq in E. rewrite String.eqb_sym in E. by rewrite E.
    + rewrite last_cons_cons. destruct (last (c' :: l)) eqn:E2; [done|].
      by apply last_None in E2.
  - rewrite filter_cons_False by done.
    destruct (last _); [done|].
    destruct (String.eqb_spec n (name c)); [congruence|done].
Qed.

Lemma registry_fold_distinct cs : ∀ d : list (string * Component),
  NoDup (dict_keys d ++ (name <$> cs)) →
  fold_left (λ d c, dict_set (name c) c d) cs d = d ++ ((λ c, (name c, c)) <$> cs).
Proof.
  induction cs as [|c cs IH]; intros d Hnd; [by rewrite app_nil_r|].
  cbn [fold_left fmap list_fmap].
  assert (Hnew : name c ∉ dict_keys d).
  { apply NoDup_app in Hnd as (_ & Hdisj & _). intros Hin.
    apply (Hdisj _ Hin). left. }
  rewrite dict_set_new by done. rewrite IH.
  - by rewrite <-app_assoc.
  - unfold dict_keys. rewrite fmap_app, <-app_assoc. exact Hnd.
Qed.

(** X9. the registry holds, under each name, the last component of the list
    with that name (a repeated name replaces the earlier component), and
    nothing under a name no component has; with distinct names it is the
    list itself, in order. *)
Theorem registry_lookup cs :
  (∀ n, dict_get n (registry cs) = last (filter (λ c, name c = n) cs)) ∧
  (∀ n c, dict_get n (registry cs) = Some c → name c = n ∧ c ∈ cs) ∧
  (NoDup (name <$> cs) → registry cs = (λ c, (name c, c)) <$> cs).
Proof.
  assert (Hget : ∀ n, dict_get n (registry cs) = last (filter (λ c, name c = n) cs)).
  { intros n. unfold registry. rewrite registry_fold_get. by destruct (last _). }
  split; [exact Hget|]. split.
  - intros n c Hc. rewrite Hget in Hc.
    apply last_Some in Hc as [l' Hl'].
    assert (Hin : c ∈ filter (λ c, name c = n) cs)
      by (rewrite Hl'; apply elem_of_app; right; left).
    by apply list_elem_of_filter in Hin.
  - intros Hnd. unfold registry. by rewrite registry_fold_distinct.
Qed.

Lemma registry_lookup_witness :
  registry reference_components = (λ c, (name c, c)) <$> reference_components.
Proof.
  apply (registry_lookup reference_components).
  apply (bool_decide_unpack _). by vm_compute.
Defined.

(** *** The dependency chain *)

Lemma build_chain_total (K : list string) rest : ∀ chain,
  dict_keys chain = K →
  (∀ n c d, (n, c) ∈ rest → dependency_of c = Some d → d ∈ K) →
  ∃ chain', fold_left add_dependent rest (Ok chain) = Ok chain'.
Proof.
  induction rest as [|[n0 c0] rest IH]; intros chain HK Hreg; [by eexists|].
  cbn [fold_left]. unfold add_dependent at 2. cbn [mbind result_bind fst snd].
  destruct (dependency_of c0) as [d0|] eqn:Hd0.
  - assert (Hin : d0 ∈ dict_keys chain) by (rewrite HK; apply (Hreg n0 c0 d0); [left|done]).
    pose proof Hin as [kids Hk]%dict_get_is_Some.
    rewrite (proj2 (dict_item_Ok _ _ _) Hk). cbn [mbind result_bind].
    apply IH; [by rewrite dict_keys_set_old|].
    intros n c d Hc. apply (Hreg n c d). by right.
  - apply IH; [done|]. intros n c d Hc. apply (Hreg n c d). by right.
Qed.

Lemma build_chain_missing (K : list string) rest : ∀ chain,
  dict_keys chain = K →
  (∃ n c d, (n, c) ∈ rest ∧ dependency_of c = Some d ∧ d ∉ K) →
  fold_left add_dependent rest (Ok chain) = Err KeyError.
Proof.
  induction rest as [|[n0 c0] rest IH]; intros chain HK (n & c & d & Hin & Hd & Hout).
  - by apply elem_of_nil in Hin.
  - cbn [fold_left]. unfold add_dependent at 2. cbn [mbind result_bind fst snd].
    destruct (dependency_of c0) as [d0|] eqn:Hd0.
    + unfold dict_item. destruct (dict_get d0 chain) as [kids|] eqn:Hk.
      * cbn [mbind result_bind].
        assert (Hin0 : d0 ∈ dict_keys chain) by (apply dict_get_is_Some; by eexists).
        apply IH; [by rewrite dict_keys_set_old|].
        apply elem_of_cons in Hin as [[= -> ->]|Hin].
        -- rewrite Hd0 in Hd. injection Hd as ->. by rewrite HK in Hin0.
        -- by exists n, c, d.
      * cbn. apply add_dependent_Err.
    + apply IH; [done|].
      apply elem_of_cons in Hin as [[= -> ->]|Hin]; [congruence|].
      by exists n, c, d.
Qed.

(** X10. the constructor succeeds when every dependency names a registered
    component and raises [KeyError] when some dependency does not; it
    raises nothing else, and on success the components are the registry. *)
Theorem init_result cs :
  (dependencies_registered (registry cs) →
     ∃ a, init cs = Ok a ∧ components a = registry cs) ∧
  ((∃ n c d, (n, c) ∈ registry cs ∧ dependency_of c = Some d ∧
             d ∉ dict_keys (registry cs)) →
     init cs = Err KeyError) ∧
  (∀ a, init cs = Ok a → dependencies_registered (components a)).
Proof.
  assert (HK : dict_keys ((λ kv : string * Component, (kv.1, @nil string))
                            <$> registry cs) = dict_keys (registry cs)).
  { unfold dict_keys. by rewrite <-list_fmap_compose. }
  split; [|split].
  - intros Hreg.
    destruct (build_chain_total _ (registry cs) _ HK Hreg) as [chain Hc].
    exists (mk (registry cs) chain). unfold init, _build_dependency_chain.
    by rewrite Hc.
  - intros Hbad. unfold init, _build_dependency_chain.
    by rewrite (build_chain_missing _ (registry cs) _ HK Hbad).
  - intros a Ha. by destruct (init_ok cs a Ha) as (_ & _ & _ & H).
Qed.

Lemma init_result_witness :
  (∃ a, init reference_components = Ok a ∧
        components a = registry reference_components) ∧
  init [AuthCore; Orphan] = Err KeyError.
Proof.
  destruct (init_result reference_components) as [Hok _].
  destruct (init_result [AuthCore; Orphan]) as (_ & Hbad & _).
  split.
  - apply Hok. intros n c d Hc Hd.
    apply dict_elem_get in Hc; [|apply registry_NoDup].
    by_cases_on_key Hc; try discriminate Hc; injection Hc as <-;
      vm_compute in Hd; try discriminate Hd; injection Hd as <-;
      apply (bool_decide_unpack _); by vm_compute.
  - apply Hbad. exists "Orphan"%string, Orphan, "Nowhere"%string.
    split; [|split].
    + apply dict_get_elem. by vm_compute.
    + reflexivity.
    + apply (bool_decide_unpack _). by vm_compute.
Defined.

Lemma children_of_snoc n seen n0 c0 :
  children_of n (seen ++ [(n0, c0)]) =
    children_of n seen ++ (if decide (dependency_of c0 = Some n) then [n0] else []).
Proof.
  unfold children_of. rewrite filter_app, fmap_app. f_equal.
  destruct (decide (dependency_of c0 = Some n)) as [E|E].
  - by rewrite filter_cons_True.
  - by rewrite filter_cons_False.
Qed.

Lemma build_chain_children (K : list string) rest : ∀ seen chain chain',
  dict_keys chain = K →
  (∀ n, n ∈ K → dict_get n chain = Some (children_of n seen)) →
  fold_left add_dependent rest (Ok chain) = Ok chain' →
  ∀ n, n ∈ K → dict_get n chain' = Some (children_of n (seen ++ rest)).
Proof.
  induction rest as [|[n0 c0] rest IH]; intros seen chain chain' HK Hch Hfold.
  - cbn in Hfold. injection Hfold as <-. by rewrite app_nil_r.
  - cbn [fold_left] in Hfold.
    replace (seen ++ (n0, c0) :: rest) with ((seen ++ [(n0, c0)]) ++ rest)
      by (by rewrite <-app_assoc).
    unfold add_dependent at 2 in Hfold. cbn [mbind result_bind snd fst] in Hfold.
    destruct (dependency_of c0) as [d0|] eqn:Hd0.
    + unfold dict_item in Hfold.
      destruct (dict_get d0 chain) as [kids0|] eqn:Hg0;
        [|cbn in Hfold; by rewrite add_dependent_Err in Hfold].
      cbn [mbind result_bind] in Hfold.
      assert (Hin0 : d0 ∈ dict_keys chain) by (apply dict_get_is_Some; by eexists).
      apply (IH (seen ++ [(n0, c0)]) _ _
                (eq_trans (dict_keys_set_old d0 (kids0 ++ [n0]) chain Hin0) HK));
        [|done].
      intros n Hn. rewrite dict_get_set, children_of_snoc, Hd0.
      destruct (String.eqb_spec n d0) as [->|Hne].
      * rewrite decide_True by done. rewrite Hch in Hg0 by done. congruence.
      * rewrite decide_False by congruence. rewrite app_nil_r. by apply Hch.
    + apply (IH (seen ++ [(n0, c0)]) _ _ HK); [|done].
      intros n Hn. rewrite children_of_snoc, Hd0.
      rewrite decide_False by done. rewrite app_nil_r. by apply Hch.
Qed.

Lemma chain_lookup cs a n :
  init cs = Ok a → n ∈ dict_keys (components a) →
  dict_get n (dependency_chain a) = Some (children_of n (components a)).
Proof.
  intros Hinit. unfold init in Hinit.
  destruct (_build_dependency_chain (registry cs)) as [chain|] eqn:Hb; [|done].
  cbn in Hinit. injection Hinit as <-. cbn [components dependency_chain].
  unfold _build_dependency_chain in Hb. revert n.
  apply (build_chain_children (dict_keys (registry cs)) _ [] _ _) with (3 := Hb).
  - unfold dict_keys. by rewrite <-list_fmap_compose.
  - intros n Hn. unfold children_of. cbn.
    apply dict_elem_get.
    + unfold dict_keys. rewrite <-list_fmap_compose. apply registry_NoDup.
    + apply list_elem_of_fmap in Hn as ([n' c'] & -> & Hin).
      apply list_elem_of_fmap. by exists (n', c').
Qed.

(** X11. the dependency chain has the registry's keys, and under each key
    exactly the names of the registered components whose dependency it is,
    in registry order. *)
Theorem dependency_chain_children cs a :
  init cs = Ok a →
  dict_keys (dependency_chain a) = dict_keys (components a) ∧
  ∀ n, n ∈ dict_keys (components a) →
       dict_get n (dependency_chain a) = Some (children_of n (components a)).
Proof.
  intros Hinit. destruct (init_ok cs a Hinit) as (_ & Hkeys & _).
  split; [exact Hkeys|]. intros n. by apply (chain_lookup cs).
Qed.

Lemma dependency_chain_children_witness :
  dict_get "AuthCore" (dependency_chain reference_analyzer) = Some ["QueueRelay"%string].
Proof.
  destruct (dependency_chain_children reference_components reference_analyzer)
    as [_ H]; [by vm_compute|].
  rewrite H; [by vm_compute|].
  apply (bool_decide_unpack _). by vm_compute.
Defined.

(** *** Cumulative latency *)

Lemma cumulative_registered a fuel n v :
  calculate_cumulative_latency fuel a n = Ok v →
  ∃ c, dict_get n (components a) = Some c.
Proof.
  destruct fuel as [|fuel]; [done|]. rewrite cumulative_unfold.
  unfold dict_item. destruct (dict_get n (components a)); [by eexists|done].
Qed.

Lemma cumulative_lower a fuel :
  nonnegative_latency a → ∀ n c v,
  dict_get n (components a) = Some c →
  calculate_cumulative_latency fuel a n = Ok v → (latency_ms c <= v)%Q.
Proof.
  intros Hnn. induction fuel as [|fuel IH]; intros n c v Hc Hv; [done|].
  rewrite cumulative_unfold, (proj2 (dict_item_Ok _ _ _) Hc) in Hv.
  cbn [mbind result_bind] in Hv.
  destruct (dependency_of c) as [d|]; [|injection Hv as <-; apply Qle_refl].
  destruct (calculate_cumulative_latency fuel a d) as [up|] eqn:Hup; [|done].
  injection Hv as <-.
  destruct (cumulative_registered a fuel d up Hup) as [cd Hcd].
  pose proof (IH d cd up Hcd Hup). pose proof (Hnn d cd Hcd). lra.
Qed.

(** X12. in a forest the cumulative latency of a component is computed
    (given enough recursion depth): it is the component's own latency for
    a root and its own latency plus the cumulative latency of its
    dependency otherwise; with no negative latencies it is at least the
    own latency. *)
Theorem cumulative_latency_spec cs a n c :
  init cs = Ok a → acyclic a → dict_get n (components a) = Some c →
  ∃ fuel0 v,
    (∀ fuel, (fuel0 ≤ fuel)%nat → calculate_cumulative_latency fuel a n = Ok v) ∧
    (dependency_of c = None → v = latency_ms c) ∧
    (∀ d, dependency_of c = Some d →
       ∃ up, (∀ fuel, (fuel0 ≤ fuel)%nat →
                calculate_cumulative_latency fuel a d = Ok up) ∧
             v = (latency_ms c + up)%Q) ∧
    (nonnegative_latency a → (latency_ms c <= v)%Q).
Proof.
  intros Hinit [depth Hrank] Hc.
  destruct (depth_bound depth (dict_keys (components a))) as [B HB].
  assert (Hn : (depth n < S B)%nat).
  { assert (depth n < B)%nat by (apply HB, dict_get_is_Some; by eexists). lia. }
  destruct (cumulative_terminates cs a depth Hinit Hrank (S B) n c Hc Hn) as [v Hv].
  exists (S B), v. split; [|split; [|split]].
  - intros fuel Hfuel. by apply (cumulative_fuel_le a n v (S B) fuel).
  - intros Hd. rewrite cumulative_unfold, (proj2 (dict_item_Ok _ _ _) Hc) in Hv.
    cbn [mbind result_bind] in Hv. rewrite Hd in Hv. congruence.
  - intros d Hd. rewrite cumulative_unfold, (proj2 (dict_item_Ok _ _ _) Hc) in Hv.
    cbn [mbind result_bind] in Hv. rewrite Hd in Hv.
    destruct (calculate_cumulative_latency B a d) as [up|] eqn:Hup; [|done].
    exists up. split; [|by injection Hv as <-].
    intros fuel Hfuel. apply (cumulative_fuel_le a d up B fuel); [lia|done].
  - intros Hnn. by apply (cumulative_lower a (S B) Hnn n c v).
Qed.

Lemma cumulative_latency_spec_witness :
  ∃ fuel0 v,
    (∀ fuel, (fuel0 ≤ fuel)%nat →
       calculate_cumulative_latency fuel reference_analyzer "QueueRelay" = Ok v) ∧
    ∃ up, (∀ fuel, (fuel0 ≤ fuel)%nat →
             calculate_cumulative_latency fuel reference_analyzer "AuthCore" = Ok up) ∧
          v = (27 + up)%Q.
Proof.
  destruct (cumulative_latency_spec reference_components reference_analyzer
              "QueueRelay" QueueRelay DominanceExampleFacts.reference_init
              (ex_intro _ reference_depth DominanceExampleFacts.reference_ranked))
    as (fuel0 & v & Hv & _ & Hdep & _); [reflexivity|].
  exists fuel0, v. split; [exact Hv|].
  apply (Hdep "AuthCore"%string). reflexivity.
Defined.

Lemma cumulative_rootless a (S : string → Prop) :
  rootless a S →
  ∀ fuel n, S n → calculate_cumulative_latency fuel a n = Err RecursionError.
Proof.
  intros Hloop fuel.
  induction fuel as [|fuel IH]; intros n Hn; [done|].
  destruct (Hloop n Hn) as (c & d & Hc & Hd & HSd).
  rewrite cumulative_unfold, (proj2 (dict_item_Ok _ _ _) Hc).
  cbn [mbind result_bind]. rewrite Hd, (IH d HSd). done.
Qed.

(** X13. following dependencies that never reach a root (a cycle), the
    cumulative latency is not computed at any recursion depth: the call
    ends in [RecursionError]. *)
Theorem cumulative_latency_cycle a (S : string → Prop) n :
  rootless a S → S n →
  ∀ fuel, calculate_cumulative_latency fuel a n = Err RecursionError.
Proof. intros Hloop Hn fuel. by apply (cumulative_rootless a S). Qed.

Lemma ping_pong_rootless :
  rootless (analyzer_of [Ping; Pong]) (λ n, n = "Ping"%string ∨ n = "Pong"%string).
Proof.
  intros n [-> | ->].
  - exists Ping, "Pong"%string. split; [by vm_compute|]. split; [done|by right].
  - exists Pong, "Ping"%string. split; [by vm_compute|]. split; [done|by left].
Qed.

Lemma cumulative_latency_cycle_witness :
  calculate_cumulative_latency 1000 (analyzer_of [Ping; Pong]) "Ping"
  = Err RecursionError.
Proof.
  apply (cumulative_latency_cycle (analyzer_of [Ping; Pong])
           (λ n, n = "Ping"%string ∨ n = "Pong"%string) "Ping" ping_pong_rootless).
  by left.
Defined.

(** *** What [identify_dominant_source] returns and raises *)

Lemma dict_set_elem {V} k v (d : list (string * V)) kv :
  kv ∈ dict_set k v d → kv = (k, v) ∨ kv ∈ d.
Proof.
  induction d as [|[k0 v0] d IH]; cbn.
  - intros H%list_elem_of_singleton. by left.
  - destruct (String.eqb k k0).
    + intros [->|H]%elem_of_cons; [by left|]. right. by right.
    + intros [->|H]%elem_of_cons; [right; left|].
      destruct (IH H) as [->|H']; [by left|]. right. by right.
Qed.

Lemma dict_set_nonempty {V} k v (d : list (string * V)) : dict_set k v d ≠ [].
Proof. destruct d as [|[k0 v0] d]; cbn; [done|]. by destruct (String.eqb k k0). Qed.

Lemma metrics_of_sound fuel a n m :
  metrics_of fuel a n = Ok m →
  ∃ c, dict_get n (components a) = Some c ∧
       latency m = latency_ms c ∧
       calculate_downstream_throughput fuel a n = Ok (downstream_throughput m) ∧
       calculate_cumulative_latency fuel a n = Ok (cumulative_latency m) ∧
       latency_throughput_ratio m
         = ratio_computed (latency m) (downstream_throughput m).
Proof.
  unfold metrics_of. unfold dict_item at 1.
  destruct (dict_get n (components a)) as [c|]; [|done].
  cbn [mbind result_bind].
  destruct (calculate_downstream_throughput fuel a n) as [dt|]; [|done].
  cbn [mbind result_bind]. rewrite ratio_of_computed. cbn [mbind result_bind].
  destruct (calculate_cumulative_latency fuel a n) as [cl|]; [|done].
  cbn [mbind result_bind]. intros [= <-]. by exists c.
Qed.

Lemma collect_metrics_sound fuel a names : ∀ acc res,
  collect_metrics fuel a names acc = Ok res →
  ∀ n m, (n, m) ∈ res → (n, m) ∈ acc ∨ metrics_of fuel a n = Ok m.
Proof.
  induction names as [|n0 names IH]; intros acc res H n m Hin.
  - cbn in H. injection H as <-. by left.
  - cbn [collect_metrics] in H.
    destruct (metrics_of fuel a n0) as [m0|] eqn:Hm0; [|done].
    cbn [mbind result_bind] in H.
    destruct (IH _ _ H n m Hin) as [Hacc|Hm]; [|by right].
    apply dict_set_elem in Hacc as [[= -> ->]|Hacc]; [by right|by left].
Qed.

Lemma collect_metrics_nonempty fuel a names : ∀ acc res,
  collect_metrics fuel a names acc = Ok res →
  acc ≠ [] ∨ names ≠ [] → res ≠ [].
Proof.
  induction names as [|n0 names IH]; intros acc res H Hne.
  - cbn in H. injection H as <-. by destruct Hne.
  - cbn [collect_metrics] in H.
    destruct (metrics_of fuel a n0) as [m0|]; [|done].
    cbn [mbind result_bind] in H. apply (IH _ _ H). left. apply dict_set_nonempty.
Qed.

Lemma py_max_sound {A} (key : A → xfloat) l m :
  py_max key l = Ok m → first_max key l m.
Proof.
  intros H. destruct (py_max_first key l) as (m' & Hm' & Hfirst).
  - by intros ->.
  - congruence.
Qed.

Lemma first_max_elem {A} (key : A → xfloat) l m : first_max key l m → m ∈ l.
Proof. intros (l1 & l2 & -> & _). apply elem_of_app. right. left. Qed.

Lemma first_max_inf {A} (key : A → xfloat) l m y :
  first_max key l m → y ∈ l → key y = PInf → key m = PInf.
Proof.
  intros (l1 & l2 & -> & H1 & H2) Hy Hk.
  apply elem_of_app in Hy as [Hy|[->|Hy]%elem_of_cons]; [|done|].
  - specialize (H1 y Hy). rewrite Hk in H1. by destruct (key m).
  - specialize (H2 y Hy). rewrite Hk in H2. by destruct (key m).
Qed.

(** X15. whenever [identify_dominant_source] returns, the dominant name is a
    registered component with an entry in the metrics; and if any
    component has a downstream throughput of 0 or less, the dominant one
    has too, with an infinite ratio. *)
Theorem infinite_ratio_dominates fuel a dominant metrics :
  identify_dominant_source fuel a = Ok (dominant, metrics) →
  dominant ∈ dict_keys (components a) ∧
  (∃ dm, (dominant, dm) ∈ metrics) ∧
  (∀ n m, (n, m) ∈ metrics → (downstream_throughput m <= 0)%Q →
     ∃ dm, (dominant, dm) ∈ metrics ∧
           latency_throughput_ratio dm = PInf ∧
           (downstream_throughput dm <= 0)%Q).
Proof.
  unfold identify_dominant_source. intros H.
  destruct (collect_metrics fuel a _ []) as [ms|] eqn:Hms; [|done].
  cbn [mbind result_bind] in H.
  destruct (py_max _ ms) as [[dn dm]|] eqn:Hmax; [|done].
  cbn in H. injection H as -> ->.
  apply py_max_sound in Hmax.
  pose proof (first_max_elem _ _ _ Hmax) as Hin.
  assert (Hsound : ∀ n m, (n, m) ∈ metrics → metrics_of fuel a n = Ok m).
  { intros n m Hnm.
    destruct (collect_metrics_sound _ _ _ _ _ Hms n m Hnm) as [Hnil|Hm]; [|done].
    by apply elem_of_nil in Hnil. }
  split; [|split].
  - destruct (metrics_of_sound _ _ _ _ (Hsound _ _ Hin)) as (c & Hc & _).
    apply dict_get_is_Some. by eexists.
  - by exists dm.
  - intros n m Hnm Hle. exists dm. split; [done|].
    destruct (metrics_of_sound _ _ _ _ (Hsound _ _ Hnm)) as (_ & _ & _ & _ & _ & Hr).
    destruct (metrics_of_sound _ _ _ _ (Hsound _ _ Hin)) as (_ & _ & _ & _ & _ & Hrd).
    assert (Hinf : latency_throughput_ratio m = PInf).
    { rewrite Hr. by apply ratio_computed_cases. }
    assert (Hdinf : latency_throughput_ratio dm = PInf).
    { apply (first_max_inf (λ x : string * Metrics, latency_throughput_ratio x.2)
               metrics (dominant, dm) (n, m)); done. }
    split; [done|].
    rewrite Hrd in Hdinf. unfold ratio_computed in Hdinf.
    destruct (Qgt_bool (downstream_throughput dm) 0) eqn:E; [done|].
    by apply Qgt_bool_false.
Qed.

Lemma infinite_ratio_dominates_witness :
  "Drain"%string ∈ dict_keys (components draining_analyzer).
Proof.
  apply (infinite_ratio_dominates 3 draining_analyzer "Drain"
           [("Feed"%string, mkMetrics 1 1 100 (Finite 0.01));
            ("Drain"%string, mkMetrics 10 10 (-5) PInf)]).
  by vm_compute.
Defined.

Lemma sum_dependents_errors (g : string → result Q) (P : exn → Prop) kids : ∀ acc,
  (∀ k e, k ∈ kids → g k = Err e → P e) →
  (∀ e, acc = Err e → P e) →
  ∀ e, fold_left (λ total dependent, t ← total; v ← g dependent; Ok (t + v)%Q)
                 kids acc = Err e → P e.
Proof.
  induction kids as [|k kids IH]; intros acc Hg Hacc e H; [by apply Hacc|].
  cbn [fold_left] in H. eapply IH; [| |exact H].
  - intros k' e' Hk'. apply Hg. by right.
  - intros e'. destruct acc as [t|e0]; cbn [mbind result_bind].
    + destruct (g k) as [v|e1] eqn:Hk; cbn [mbind result_bind]; [done|].
      intros [= <-]. apply (Hg k); [left|done].
    + intros [= <-]. by apply Hacc.
Qed.

Section Registered.
Variables (cs : list Component) (a : DominantLatencyAnalyzer).
Hypothesis Hinit : init cs = Ok a.

Lemma downstream_errors fuel : ∀ n e,
  n ∈ dict_keys (components a) →
  calculate_downstream_throughput fuel a n = Err e → e = RecursionError.
Proof.
  destruct (init_ok cs a Hinit) as (Hnd & Hkeys & Hkids & Hdeps).
  induction fuel as [|fuel IH]; intros n e Hn H; [by injection H|].
  rewrite downstream_unfold in H.
  pose proof Hn as [c Hc]%dict_get_is_Some.
  rewrite <-Hkeys in Hn. apply dict_get_is_Some in Hn as [kids Hk].
  rewrite (proj2 (dict_item_Ok _ _ _) Hc), (proj2 (dict_item_Ok _ _ _) Hk) in H.
  cbn [mbind result_bind] in H.
  revert e H.
  apply (sum_dependents_errors (calculate_downstream_throughput fuel a)
           (λ e, e = RecursionError)); [|done].
  intros k e' Hin. apply IH.
  destruct (Hkids n kids k Hk Hin) as (ck & Hck & _).
  apply (list_elem_of_fmap_2 fst) in Hck. exact Hck.
Qed.

Lemma cumulative_errors fuel : ∀ n e,
  n ∈ dict_keys (components a) →
  calculate_cumulative_latency fuel a n = Err e → e = RecursionError.
Proof.
  destruct (init_ok cs a Hinit) as (Hnd & Hkeys & Hkids & Hdeps).
  induction fuel as [|fuel IH]; intros n e Hn H; [by injection H|].
  rewrite cumulative_unfold in H.
  pose proof Hn as [c Hc]%dict_get_is_Some.
  rewrite (proj2 (dict_item_Ok _ _ _) Hc) in H. cbn [mbind result_bind] in H.
  destruct (dependency_of c) as [d|] eqn:Hd; [|done].
  destruct (calculate_cumulative_latency fuel a d) as [up|] eqn:Hup; [done|].
  cbn in H. injection H as <-. apply (IH d); [|done].
  eapply Hdeps; [|done]. by apply dict_get_elem.
Qed.

Lemma metrics_of_errors fuel n e :
  n ∈ dict_keys (components a) →
  metrics_of fuel a n = Err e → e = RecursionError.
Proof.
  intros Hn. pose proof Hn as [c Hc]%dict_get_is_Some.
  unfold metrics_of. rewrite (proj2 (dict_item_Ok _ _ _) Hc).
  cbn [mbind result_bind].
  destruct (calculate_downstream_throughput fuel a n) as [dt|e0] eqn:Hdt.
  - cbn [mbind result_bind]. rewrite ratio_of_computed. cbn [mbind result_bind].
    destruct (calculate_cumulative_latency fuel a n) as [cl|e1] eqn:Hcl; [done|].
    cbn. intros [= <-]. by apply (cumulative_errors fuel n).
  - cbn. intros [= <-]. by apply (downstream_errors fuel n).
Qed.

Lemma collect_metrics_errors fuel names : ∀ acc e,
  (∀ n, n ∈ names → n ∈ dict_keys (components a)) →
  collect_metrics fuel a names acc = Err e → e = RecursionError.
Proof.
  induction names as [|n names IH]; intros acc e Hreg H; [done|].
  cbn [collect_metrics] in H.
  destruct (metrics_of fuel a n) as [m|e0] eqn:Hm.
  - cbn [mbind result_bind] in H. eapply IH; [|exact H].
    intros n' Hn'. apply Hreg. by right.
  - cbn in H. injection H as <-. apply (metrics_of_errors fuel n); [|done].
    apply Hreg. left.
Qed.

Lemma collect_metrics_fails fuel names : ∀ acc n,
  (∀ n, n ∈ names → n ∈ dict_keys (components a)) →
  n ∈ names → metrics_of fuel a n = Err RecursionError →
  collect_metrics fuel a names acc = Err RecursionError.
Proof.
  induction names as [|n0 names IH]; intros acc n Hreg Hn Hfail.
  - by apply elem_of_nil in Hn.
  - cbn [collect_metrics].
    destruct (metrics_of fuel a n0) as [m|e0] eqn:Hm.
    + cbn [mbind result_bind].
      apply elem_of_cons in Hn as [->|Hn]; [congruence|].
      apply (IH _ n); [|done..]. intros n' Hn'. apply Hreg. by right.
    + cbn. f_equal. apply (metrics_of_errors fuel n0); [|done]. apply Hreg. left.
Qed.

(** X16. after a successful construction [identify_dominant_source] raises
    [ValueError] exactly on the empty registry, and whatever else it raises
    is [RecursionError]. *)
Theorem identify_dominant_source_errors fuel :
  (components a = [] → identify_dominant_source fuel a = Err ValueError) ∧
  (∀ e, identify_dominant_source fuel a = Err e →
        (e = ValueError ∧ components a = []) ∨
        (e = RecursionError ∧ components a ≠ [])).
Proof.
  split.
  - intros Hnil. unfold identify_dominant_source. by rewrite Hnil.
  - intros e. unfold identify_dominant_source.
    destruct (collect_metrics fuel a _ []) as [ms|e0] eqn:Hms.
    + cbn [mbind result_bind].
      destruct ms as [|x ms]; [|done]. cbn. intros [= <-]. left. split; [done|].
      destruct (components a) as [|kv comps] eqn:Hc; [done|]. exfalso.
      apply (collect_metrics_nonempty _ _ _ _ _ Hms); [by right|done].
    + cbn. intros [= <-]. right.
      split; [by apply (collect_metrics_errors fuel (dict_keys (components a)) [] e0)|].
      intros Hnil. rewrite Hnil in Hms. done.
Qed.

(** X17. if some registered component lies on dependencies that never reach
    a root (a cycle), [identify_dominant_source] returns at no recursion
    depth: it ends in [RecursionError]. *)
Theorem identify_dominant_source_cycle (S : string → Prop) n :
  rootless a S → S n →
  ∀ fuel, identify_dominant_source fuel a = Err RecursionError.
Proof.
  intros Hloop Hn fuel.
  destruct (Hloop n Hn) as (c & d & Hc & _).
  assert (Hreg : n ∈ dict_keys (components a)) by (apply dict_get_is_Some; by eexists).
  assert (Hfail : metrics_of fuel a n = Err RecursionError).
  { destruct (metrics_of fuel a n) as [m|e] eqn:Hm.
    - destruct (metrics_of_sound _ _ _ _ Hm) as (_ & _ & _ & _ & Hcl & _).
      by rewrite (cumulative_rootless a S Hloop fuel n Hn) in Hcl.
    - f_equal. by apply (metrics_of_errors fuel n). }
  unfold identify_dominant_source.
  by rewrite (collect_metrics_fails fuel (dict_keys (components a)) [] n).
Qed.
End Registered.

Lemma identify_dominant_source_errors_witness :
  identify_dominant_source 1000 (analyzer_of []) = Err ValueError.
Proof.
  apply (identify_dominant_source_errors [] (analyzer_of []) eq_refl 1000).
  reflexivity.
Defined.

Lemma identify_dominant_source_cycle_witness :
  identify_dominant_source 1000 (analyzer_of [Ping; Pong]) = Err RecursionError.
Proof.
  apply (identify_dominant_source_cycle [Ping; Pong] (analyzer_of [Ping; Pong])
           eq_refl (λ n, n = "Ping"%string ∨ n = "Pong"%string) "Ping"
           ping_pong_rootless).
  by left.
Defined.

(** *** Downstream throughput, one level down *)

Lemma sum_dependents_values (g : string → result Q) kids : ∀ t0 v,
  fold_left (λ total dependent, t ← total; v ← g dependent; Ok (t + v)%Q)
            kids (Ok t0) = Ok v →
  ∃ vs, Forall2 (λ k vk, g k = Ok vk) kids vs ∧ v = fold_left Qplus vs t0.
Proof.
  induction kids as [|k kids IH]; intros t0 v H.
  - cbn in H. injection H as <-. exists []. by split; [constructor|].
  - cbn [fold_left mbind result_bind] in H.
    destruct (g k) as [vk|e] eqn:Hk.
    + cbn [mbind result_bind] in H.
      destruct (IH _ _ H) as (vs & Hvs & ->).
      exists (vk :: vs). split; [by constructor|done].
    + exfalso. cbn [mbind result_bind] in H. clear -H.
      induction kids as [|k' kids IHk]; [done|]. cbn in H. auto.
Qed.

(** X14. in a forest the downstream throughput of a component is its own
    throughput plus, added in registry order, the downstream throughputs of
    exactly the registered components that name it as their dependency; for
    a component nothing depends on it is the own throughput. *)
Theorem downstream_throughput_spec cs a n c :
  init cs = Ok a → acyclic a → dict_get n (components a) = Some c →
  ∃ fuel0 v vs,
    (∀ fuel, (fuel0 ≤ fuel)%nat → calculate_downstream_throughput fuel a n = Ok v) ∧
    Forall2 (λ k vk, ∀ fuel, (fuel0 ≤ fuel)%nat →
                       calculate_downstream_throughput fuel a k = Ok vk)
            (children_of n (components a)) vs ∧
    v = fold_left Qplus vs (throughput_mbps c) ∧
    (children_of n (components a) = [] → v = throughput_mbps c).
Proof.
  intros Hinit [depth Hrank] Hc.
  destruct (depth_bound depth (dict_keys (components a))) as [B HB].
  assert (Hn : n ∈ dict_keys (components a)) by (apply dict_get_is_Some; by eexists).
  destruct (downstream_terminates cs a depth B Hinit Hrank HB (S B) n c Hc)
    as (v & Hv & _); [lia|].
  pose proof Hv as Hv'.
  rewrite downstream_unfold, (proj2 (dict_item_Ok _ _ _) Hc) in Hv'.
  rewrite (proj2 (dict_item_Ok _ _ _) (chain_lookup cs a n Hinit Hn)) in Hv'.
  cbn [mbind result_bind] in Hv'.
  destruct (sum_dependents_values _ _ _ _ Hv') as (vs & Hvs & Hsum).
  exists (S B), v, vs. split; [|split; [|split]].
  - intros fuel Hfuel. by apply (downstream_fuel_le a n v (S B) fuel).
  - eapply Forall2_impl; [exact Hvs|]. cbn. intros k vk Hk fuel Hfuel.
    apply (downstream_fuel_le a k vk B fuel); [lia|done].
  - exact Hsum.
  - intros Hnil. rewrite Hnil in Hvs. apply Forall2_nil_inv_l in Hvs as ->.
    exact Hsum.
Qed.

Lemma downstream_throughput_spec_witness :
  ∃ fuel0 v,
    (∀ fuel, (fuel0 ≤ fuel)%nat →
       calculate_downstream_throughput fuel reference_analyzer "CloudInference" = Ok v) ∧
    v = 1150%Q.
Proof.
  destruct (downstream_throughput_spec reference_components reference_analyzer
              "CloudInference" CloudInference DominanceExampleFacts.reference_init
              (ex_intro _ reference_depth DominanceExampleFacts.reference_ranked))
    as (fuel0 & v & vs & Hv & _ & _ & Hleaf); [reflexivity|].
  exists fuel0, v. split; [exact Hv|]. apply Hleaf. by vm_compute.
Defined.

(** *** Lemmas for the callers of the analyzer *)

Lemma identify_returns fuel a dominant metrics :
  identify_dominant_source fuel a = Ok (dominant, metrics) →
  ∃ dm, (dominant, dm) ∈ metrics ∧
        ∀ n m, (n, m) ∈ metrics → metrics_of fuel a n = Ok m.
Proof.
  unfold identify_dominant_source. intros H.
  destruct (collect_metrics fuel a _ []) as [ms|] eqn:Hms; [|done].
  cbn [mbind result_bind] in H.
  destruct (py_max _ ms) as [[dn dm]|] eqn:Hmax; [|done].
  cbn in H. injection H as -> ->.
  exists dm. split; [exact (first_max_elem _ _ _ (py_max_sound _ _ _ Hmax))|].
  intros n m Hnm.
  destruct (collect_metrics_sound _ _ _ _ _ Hms n m Hnm) as [Hnil|Hm]; [|done].
  by apply elem_of_nil in Hnil.
Qed.

Lemma downstream_registered a fuel n v :
  calculate_downstream_throughput fuel a n = Ok v →
  ∃ c, dict_get n (components a) = Some c.
Proof.
  destruct fuel as [|fuel]; [done|]. rewrite downstream_unfold.
  intros H. destruct (dict_get n (components a)) as [c|] eqn:Hc; [by eexists|].
  unfold dict_item in H. rewrite Hc in H. discriminate H.
Qed.

Lemma Qsum_lower vs : ∀ t0 : Q,
  Forall (λ v, 0 <= v)%Q vs → (t0 <= fold_left Qplus vs t0)%Q.
Proof.
  induction vs as [|v vs IH]; intros t0 Hvs; [apply Qle_refl|].
  apply Forall_cons in Hvs as [Hv Hvs]. cbn.
  pose proof (IH (t0 + v)%Q Hvs). lra.
Qed.

Lemma downstream_lower a fuel :
  nonnegative_throughput a → ∀ n c v,
  dict_get n (components a) = Some c →
  calculate_downstream_throughput fuel a n = Ok v → (throughput_mbps c <= v)%Q.
Proof.
  intros Hnn. induction fuel as [|fuel IH]; intros n c v Hc Hv; [done|].
  rewrite downstream_unfold, (proj2 (dict_item_Ok _ _ _) Hc) in Hv.
  cbn [mbind result_bind] in Hv.
  destruct (dict_item n (dependency_chain a)) as [kids|]; [|done].
  cbn [mbind result_bind] in Hv.
  destruct (sum_dependents_values _ _ _ _ Hv) as (vs & Hvs & ->).
  apply Qsum_lower. clear Hv.
  induction Hvs as [|k vk kids vs Hk _ IHvs]; constructor; [|done].
  destruct (downstream_registered a fuel k vk Hk) as [ck Hck].
  pose proof (IH k ck vk Hck Hk). pose proof (Hnn k ck Hck). lra.
Qed.

Lemma registry_key_named cs n :
  n ∈ dict_keys (registry cs) → ∃ c, c ∈ cs ∧ name c = n.
Proof.
  intros [c Hc]%dict_get_is_Some. unfold registry in Hc.
  rewrite registry_fold_get in Hc.
  destruct (last (filter (λ c, name c = n) cs)) as [c'|] eqn:Hl; [|done].
  apply last_Some in Hl as [l' Hl'].
  assert (Hin : c' ∈ filter (λ c, name c = n) cs)
    by (rewrite Hl'; apply elem_of_app; right; left).
  apply list_elem_of_filter in Hin as [? ?]. by exists c'.
Qed.

Lemma init_components cs a : init cs = Ok a → components a = registry cs.
Proof.
  unfold init. destruct (_build_dependency_chain _); [|done].
  cbn. by intros [= <-].
Qed.

End DominanceMoreFacts.

(** ** The contention model and the elasticity optimizer *)

Section ElasticityMoreFacts.
Variable pow : Q → Q → Q.
Local Open Scope Q_scope.

(** X18. [calculate_contention] raises [ZeroDivisionError] exactly when the
    quorum size is 0; otherwise it returns
    requests_per_sec * latency_ms / (1000 * quorum_size). *)
Theorem calculate_contention_spec (m : Contention.ContentionModel) :
  (Contention.quorum_size m = 0%Z ↔
     Contention.calculate_contention m = Err ZeroDivisionError) ∧
  (Contention.quorum_size m ≠ 0%Z →
     Contention.calculate_contention m =
       Ok (inject_Z (requests_per_sec (Contention.component m))
             * latency_ms (Contention.component m)
           / inject_Z (1000 * Contention.quorum_size m))).
Proof.
  unfold Contention.calculate_contention.
  assert (Hz : inject_Z (1000 * Contention.quorum_size m) == 0
               ↔ Contention.quorum_size m = 0%Z).
  { unfold Qeq, inject_Z. cbn. lia. }
  split; [split|].
  - intros H. apply fdiv_zero. by apply Hz.
  - intros H. apply Hz. unfold fdiv in H.
    destruct (Qeq_bool _ 0) eqn:E; [by apply Qeq_bool_iff|done].
  - intros H. apply fdiv_nonzero. by rewrite Hz.
Qed.

Lemma calculate_contention_spec_witness :
  Contention.calculate_contention (Contention.init CloudInference 2)
    = Ok (inject_Z 275 * 44 / inject_Z (1000 * 2)).
Proof.
  by apply (calculate_contention_spec (Contention.init CloudInference 2)).
Defined.

(** X19. with a base latency and an alpha that are not negative, the
    effective latency at a contention whose power is not negative is at
    least the base latency, and it does not decrease when the power grows. *)
Theorem effective_latency_at_least_base o c :
  0 <= base_latency o → 0 <= alpha o → 0 <= pow c (beta o) →
  base_latency o <= effective_latency pow o c ∧
  ∀ c', pow c (beta o) <= pow c' (beta o) →
        effective_latency pow o c <= effective_latency pow o c'.
Proof.
  intros Hb Ha Hp. unfold effective_latency.
  set (b := base_latency o) in *. set (al := alpha o) in *.
  set (p := pow c (beta o)) in *.
  assert (H0 : 0 <= al * p) by (by apply Qmult_le_0_compat).
  split.
  - assert (H1 : 0 <= b * (al * p)) by (by apply Qmult_le_0_compat). lra.
  - intros c' Hp'. set (p' := pow c' (beta o)) in *.
    assert (H1 : 0 <= al * (p' - p)) by (apply Qmult_le_0_compat; lra).
    assert (H2 : 0 <= b * (al * (p' - p))) by (by apply Qmult_le_0_compat).
    lra.
Qed.

End ElasticityMoreFacts.

Lemma effective_latency_at_least_base_witness :
  (44 <= effective_latency pow_floor (default_elasticity 44) 0.5)%Q.
Proof.
  by apply (effective_latency_at_least_base pow_floor (default_elasticity 44) 0.5).
Defined.

Section TradeoffFacts.
Variable pow : Q → Q → Q.
Local Open Scope Q_scope.

Lemma fdict_set_elem {V} k (v : V) d kv :
  kv ∈ fdict_set k v d → (kv.1 == k ∧ kv.2 = v) ∨ kv ∈ d.
Proof.
  induction d as [|[k0 v0] d IH]; cbn.
  - intros ->%list_elem_of_singleton. left. by split.
  - destruct (Qeq_bool k k0) eqn:E.
    + intros [->|H]%elem_of_cons; [|right; by right].
      left. apply Qeq_bool_iff in E. split; [by symmetry|done].
    + intros [->|H]%elem_of_cons; [right; left|].
      destruct (IH H) as [?|?]; [by left|right; by right].
Qed.

Lemma fdict_set_has {V} k (v : V) d : ∃ k', k' == k ∧ (k', v) ∈ fdict_set k v d.
Proof.
  induction d as [|[k0 v0] d (k' & Hk' & Hin)]; cbn.
  - exists k. split; [reflexivity|left].
  - destruct (Qeq_bool k k0) eqn:E.
    + exists k0. apply Qeq_bool_iff in E. split; [by symmetry|left].
    + exists k'. split; [done|by right].
Qed.

Lemma fdict_set_keeps {V} k (v : V) d k0 v0 :
  (k0, v0) ∈ d → ∃ v', (k0, v') ∈ fdict_set k v d.
Proof.
  induction d as [|[k1 v1] d IH]; cbn; [by intros ?%elem_of_nil|].
  intros [[= -> ->]|H]%elem_of_cons.
  - destruct (Qeq_bool k k1); eexists; left.
  - destruct (IH H) as [v' Hv']. destruct (Qeq_bool k k1).
    + exists v0. by right.
    + exists v'. by right.
Qed.

Lemma tradeoff_fold_Err o rest e :
  fold_left (tradeoff_step pow o) rest (Err e) = Err e.
Proof. induction rest as [|c rest IH]; [done|]. cbn. exact IH. Qed.

Lemma tradeoff_step_Ok o acc c d :
  tradeoff_step pow o (Ok acc) c = Ok d →
  ¬ effective_latency pow o c == 0 ∧ ¬ base_latency o == 0 ∧
  d = fdict_set c (mkTradeoff (effective_latency pow o c)
                     (base_latency o / effective_latency pow o c)
                     (effective_latency pow o c / base_latency o)) acc.
Proof.
  unfold tradeoff_step, fdiv. cbn [mbind result_bind].
  destruct (Qeq_bool (effective_latency pow o c) 0) eqn:E1; [done|].
  cbn [mbind result_bind].
  destruct (Qeq_bool (base_latency o) 0) eqn:E2; [done|].
  cbn. intros [= <-]. split; [|split; [|done]].
  - intros H. apply Qeq_bool_iff in H. congruence.
  - intros H. apply Qeq_bool_iff in H. congruence.
Qed.

Lemma tradeoff_fold_entries o range rest : ∀ acc d,
  (∀ c, c ∈ rest → c ∈ range) →
  (∀ kv, kv ∈ acc → entry_of pow o range kv) →
  fold_left (tradeoff_step pow o) rest (Ok acc) = Ok d →
  ∀ kv, kv ∈ d → entry_of pow o range kv.
Proof.
  induction rest as [|c rest IH]; intros acc d Hsub Hacc H.
  - cbn in H. by injection H as <-.
  - cbn [fold_left] in H.
    destruct (tradeoff_step pow o (Ok acc) c) as [acc'|e] eqn:Hs;
      [|by rewrite tradeoff_fold_Err in H].
    apply tradeoff_step_Ok in Hs as (Hl & Hb & ->).
    eapply IH; [| |exact H].
    { intros c' Hc'. apply Hsub. by right. }
    intros kv [[Hk Hv]|Hin]%fdict_set_elem; [|by apply Hacc].
    exists c. split; [apply Hsub; left|]. split; [by symmetry|]. by rewrite Hv.
Qed.

Lemma tradeoff_fold_covers o rest : ∀ acc d,
  fold_left (tradeoff_step pow o) rest (Ok acc) = Ok d →
  (∀ k v, (k, v) ∈ acc → ∃ v', (k, v') ∈ d) ∧
  (∀ c, c ∈ rest → ∃ k v, (k, v) ∈ d ∧ k == c).
Proof.
  induction rest as [|c rest IH]; intros acc d H.
  - cbn in H. injection H as <-. split; [by eauto|]. by intros c ?%elem_of_nil.
  - cbn [fold_left] in H.
    destruct (tradeoff_step pow o (Ok acc) c) as [acc'|e] eqn:Hs;
      [|by rewrite tradeoff_fold_Err in H].
    apply tradeoff_step_Ok in Hs as (_ & _ & ->).
    destruct (IH _ _ H) as [Hkeep Hrest]. split.
    + intros k v Hin. destruct (fdict_set_keeps c
        (mkTradeoff (effective_latency pow o c)
           (base_latency o / effective_latency pow o c)
           (effective_latency pow o c / base_latency o)) acc k v Hin) as [v' Hv'].
      by eapply Hkeep.
    + intros c' [->|Hc']%elem_of_cons; [|by apply Hrest].
      destruct (fdict_set_has c
        (mkTradeoff (effective_latency pow o c)
           (base_latency o / effective_latency pow o c)
           (effective_latency pow o c / base_latency o)) acc) as (k' & Hk' & Hin).
      destruct (Hkeep _ _ Hin) as [v' Hv']. by exists k', v'.
Qed.

(** X20. when [analyze_tradeoffs] returns, every contention of the range has
    an entry under an equal key; every entry is the one computed for a
    contention of the range: its relative throughput times its latency
    increase factor is 1 and its effective latency is the base latency
    times the factor; and the base latency is not 0 unless the range is
    empty. *)
Theorem analyze_tradeoffs_sound o range d :
  analyze_tradeoffs pow o range = Ok d →
  (∀ c, c ∈ range → ∃ k v, (k, v) ∈ d ∧ k == c) ∧
  (∀ k v, (k, v) ∈ d →
     ∃ c, c ∈ range ∧ c == k ∧
          tr_effective_latency v = effective_latency pow o c ∧
          tr_relative_throughput v * tr_latency_increase_factor v == 1 ∧
          tr_effective_latency v == base_latency o * tr_latency_increase_factor v) ∧
  (range ≠ [] → ¬ base_latency o == 0).
Proof.
  intros H. split; [|split].
  - by apply (tradeoff_fold_covers o range [] d).
  - intros k v Hin.
    destruct (tradeoff_fold_entries o range range [] d) with (kv := (k, v))
      as (c & Hc & Hk & Hl & Hb & Hv); [done|by intros ? ?%elem_of_nil|done..|].
    exists c. cbn in Hk, Hv. rewrite Hv. cbn.
    split; [done|]. split; [done|]. split; [done|]. split; field; done.
  - intros Hne. destruct range as [|c rest]; [done|].
    unfold analyze_tradeoffs in H. cbn [fold_left] in H.
    destruct (tradeoff_step pow o (Ok []) c) as [acc'|e] eqn:Hs;
      [|by rewrite tradeoff_fold_Err in H].
    by apply tradeoff_step_Ok in Hs as (_ & Hb & _).
Qed.

(** X21. with a base latency of 0 [analyze_tradeoffs] raises
    [ZeroDivisionError] on every range that is not empty, and on the empty
    range it returns the empty dictionary. *)
Theorem analyze_tradeoffs_zero_base o range :
  base_latency o == 0 →
  (range ≠ [] → analyze_tradeoffs pow o range = Err ZeroDivisionError) ∧
  analyze_tradeoffs pow o [] = Ok [].
Proof.
  intros Hb. split; [|done]. intros Hne.
  destruct range as [|c rest]; [done|].
  unfold analyze_tradeoffs. cbn [fold_left].
  assert (Hs : tradeoff_step pow o (Ok []) c = Err ZeroDivisionError).
  { unfold tradeoff_step. cbn [mbind result_bind].
    rewrite (fdiv_zero (base_latency o) (effective_latency pow o c)); [done|].
    unfold effective_latency. rewrite Hb. ring. }
  rewrite Hs. apply tradeoff_fold_Err.
Qed.

(** X22. with a positive base latency, an alpha that is not negative and
    powers that are not negative on the range, [analyze_tradeoffs] returns,
    and in every entry the latency increase factor is at least 1 and the
    relative throughput is positive and at most 1. *)
Theorem analyze_tradeoffs_total o range :
  0 < base_latency o → 0 <= alpha o →
  (∀ c, c ∈ range → 0 <= pow c (beta o)) →
  ∃ d, analyze_tradeoffs pow o range = Ok d ∧
       ∀ k v, (k, v) ∈ d →
              1 <= tr_latency_increase_factor v ∧
              0 < tr_relative_throughput v ∧ tr_relative_throughput v <= 1.
Proof.
  intros Hb Ha Hp.
  assert (Hl : ∀ c, c ∈ range →
            base_latency o <= effective_latency pow o c).
  { intros c Hc. unfold effective_latency.
    assert (0 <= alpha o * pow c (beta o)) by (apply Qmult_le_0_compat; auto).
    assert (0 <= base_latency o * (alpha o * pow c (beta o)))
      by (apply Qmult_le_0_compat; lra).
    lra. }
  assert (Hok : ∀ rest acc, (∀ c, c ∈ rest → c ∈ range) →
            ∃ d, fold_left (tradeoff_step pow o) rest (Ok acc) = Ok d).
  { induction rest as [|c rest IH]; intros acc Hsub; [by eexists|].
    cbn [fold_left]. unfold tradeoff_step at 2. cbn [mbind result_bind].
    pose proof (Hl c (Hsub c (list_elem_of_here _ _))).
    rewrite (fdiv_nonzero (base_latency o)) by lra. cbn [mbind result_bind].
    rewrite fdiv_nonzero by lra. cbn [mbind result_bind].
    apply IH. intros c' Hc'. apply Hsub. by right. }
  destruct (Hok range [] (λ c Hc, Hc)) as [d Hd].
  exists d. split; [exact Hd|]. intros k v Hin.
  destruct (tradeoff_fold_entries o range range [] d) with (kv := (k, v))
    as (c & Hc & _ & _ & _ & Hv); [done|by intros ? ?%elem_of_nil|done..|].
  cbn in Hv. rewrite Hv. cbn. pose proof (Hl c Hc) as Hle.
  split; [|split].
  - apply Qle_shift_div_l; lra.
  - apply Qlt_shift_div_l; lra.
  - apply Qle_shift_div_r; lra.
Qed.

End TradeoffFacts.

Lemma analyze_tradeoffs_sound_witness :
  ∃ k v, (k, v) ∈ [(0.5%Q, mkTradeoff (44 * (1 + 0.2 * 0.5)) (44 / (44 * (1 + 0.2 * 0.5)))
                             ((44 * (1 + 0.2 * 0.5)) / 44))%Q] ∧ (k == 0.5)%Q.
Proof.
  apply (analyze_tradeoffs_sound pow_floor (default_elasticity 44) [0.5%Q]);
    [reflexivity|left].
Defined.

Lemma analyze_tradeoffs_zero_base_witness :
  analyze_tradeoffs pow_floor (default_elasticity 0) [0.5%Q] = Err ZeroDivisionError.
Proof.
  by apply (analyze_tradeoffs_zero_base pow_floor (default_elasticity 0) [0.5%Q]).
Defined.

Lemma analyze_tradeoffs_total_witness :
  ∃ d, analyze_tradeoffs pow_floor (default_elasticity 44) [0.5%Q; 1%Q] = Ok d.
Proof.
  destruct (analyze_tradeoffs_total pow_floor (default_elasticity 44) [0.5%Q; 1%Q])
    as (d & Hd & _); [reflexivity|by vm_compute| |by exists d].
  intros c Hc. destruct pow_floor_monotone as [Hnn _]. apply Hnn.
  apply elem_of_cons in Hc as [->|Hc]; [reflexivity|].
  apply list_elem_of_singleton in Hc as ->. reflexivity.
Defined.

(** ** The throughput search *)

Section SearchMoreFacts.
Variable pow : Q → Q → Q.
Local Open Scope Q_scope.

Lemma search_fold_Err t max_mem cs e :
  fold_left (search_step pow t max_mem) cs (Err e) = Err e.
Proof. induction cs as [|c cs IH]; [done|]. cbn. exact IH. Qed.

(** One turn of the loop that does not raise. *)
Lemma search_step_cases t max_mem b c b' :
  search_step pow t max_mem (Ok b) c = Ok b' →
  (b' = b ∧
   (max_mem < memory_divergence pow t c ∨
    (¬ memory_divergence pow t c == 0 ∧
     throughput_mbps (component t) * (max_mem / memory_divergence pow t c) <= b.2))) ∨
  (b' = (c, throughput_mbps (component t) * (max_mem / memory_divergence pow t c)) ∧
   memory_divergence pow t c <= max_mem ∧
   ¬ memory_divergence pow t c == 0 ∧
   b.2 < throughput_mbps (component t) * (max_mem / memory_divergence pow t c)).
Proof.
  unfold search_step. cbn [mbind result_bind].
  destruct (Qle_bool (memory_divergence pow t c) max_mem) eqn:Hf.
  - apply Qle_bool_iff in Hf. unfold fdiv.
    destruct (Qeq_bool (memory_divergence pow t c) 0) eqn:Hz; [done|].
    assert (Hnz : ¬ memory_divergence pow t c == 0).
    { intros H. apply Qeq_bool_iff in H. congruence. }
    cbn [mbind result_bind].
    destruct (Qgt_bool _ b.2) eqn:Hgt.
    + apply DominanceFacts.Qgt_bool_true in Hgt. intros [= <-]. by right.
    + apply DominanceFacts.Qgt_bool_false in Hgt. intros [= <-]. left. split; [done|]. by right.
  - intros [= <-]. left. split; [done|]. left.
    apply Qnot_le_lt. intros H. apply Qle_bool_iff in H. congruence.
Qed.

Lemma search_result t max_mem cs : ∀ b b',
  fold_left (search_step pow t max_mem) cs (Ok b) = Ok b' →
  b.2 <= b'.2 ∧
  (b' = b ∨
   (b'.1 ∈ cs ∧ memory_divergence pow t b'.1 <= max_mem ∧
    ¬ memory_divergence pow t b'.1 == 0 ∧
    b'.2 = throughput_mbps (component t) * (max_mem / memory_divergence pow t b'.1) ∧
    b.2 < b'.2)) ∧
  (∀ c, c ∈ cs → memory_divergence pow t c <= max_mem →
        throughput_mbps (component t) * (max_mem / memory_divergence pow t c) <= b'.2).
Proof.
  induction cs as [|c cs IH]; intros b b' H.
  - cbn in H. injection H as <-. split; [apply Qle_refl|]. split; [by left|].
    by intros c ?%elem_of_nil.
  - cbn [fold_left] in H.
    destruct (search_step pow t max_mem (Ok b) c) as [b1|e] eqn:Hs;
      [|by rewrite search_fold_Err in H].
    destruct (IH _ _ H) as (Hle & Hcase & Hmax).
    apply search_step_cases in Hs.
    assert (Hb1 : b.2 <= b1.2).
    { destruct Hs as [[-> _]|(-> & _ & _ & Hlt)]; [apply Qle_refl|cbn; lra]. }
    split; [lra|]. split.
    + destruct Hcase as [->|(Hin & Hf & Hnz & Hval & Hlt)].
      * destruct Hs as [[-> _]|(-> & Hf & Hnz & Hlt)]; [by left|].
        right. cbn. split; [left|]. done.
      * right. split; [by right|]. do 3 (split; [done|]). lra.
    + intros c' [->|Hc']%elem_of_cons Hf; [|by apply Hmax].
      destruct Hs as [[-> [Habove|[_ Hle']]]|(-> & _ & _ & _)]; [lra|lra|cbn in *; lra].
Qed.

(** X23. when [optimize_throughput] returns, either nothing was selected
    (contention 0, throughput 0) or the selected contention is a grid
    sample that respects the memory ceiling, the optimized throughput is
    positive and is the throughput scaled by ceiling over memory there; and
    the memory reported as used is the one at the selected contention,
    at most the ceiling whenever a sample was selected. *)
Theorem optimize_throughput_feasible t r :
  optimize_throughput pow t = Ok r →
  opt_memory_used r = memory_divergence pow t (opt_optimal_contention r) ∧
  opt_memory_max r = max_memory_allowed t ∧
  ((opt_optimal_contention r = 0 ∧ opt_optimized_throughput r = 0) ∨
   (opt_optimal_contention r ∈ grid ∧
    opt_memory_used r <= opt_memory_max r ∧
    0 < opt_optimized_throughput r ∧
    opt_optimized_throughput r =
      throughput_mbps (component t) * (opt_memory_max r / opt_memory_used r))).
Proof.
  unfold optimize_throughput. intros H.
  destruct (fold_left _ grid (Ok (0, 0))) as [[bc bt]|e] eqn:Hfold; [|done].
  cbn [mbind result_bind] in H.
  destruct (fdiv _ _) as [gain|e]; [|done]. cbn in H. injection H as <-. cbn.
  split; [done|]. split; [done|].
  destruct (search_result _ _ _ _ _ Hfold) as (_ & [[= -> ->]|Hsel] & _); [by left|].
  cbn in Hsel. destruct Hsel as (Hin & Hf & _ & Hval & Hlt). right. done.
Qed.

(** X24. when [optimize_throughput] returns, the optimized throughput is not
    negative and no grid sample under the memory ceiling has a greater
    candidate throughput. *)
Theorem optimize_throughput_maximal t r :
  optimize_throughput pow t = Ok r →
  0 <= opt_optimized_throughput r ∧
  ∀ c, c ∈ grid → memory_divergence pow t c <= max_memory_allowed t →
       throughput_mbps (component t)
         * (max_memory_allowed t / memory_divergence pow t c)
       <= opt_optimized_throughput r.
Proof.
  unfold optimize_throughput. intros H.
  destruct (fold_left _ grid (Ok (0, 0))) as [[bc bt]|e] eqn:Hfold; [|done].
  cbn [mbind result_bind] in H.
  destruct (fdiv _ _) as [gain|e]; [|done]. cbn in H. injection H as <-. cbn.
  destruct (search_result _ _ _ _ _ Hfold) as (Hle & _ & Hmax). done.
Qed.

Lemma search_raises t max_mem cs : ∀ b e,
  fold_left (search_step pow t max_mem) cs (Ok b) = Err e ↔
  e = ZeroDivisionError ∧
  ∃ c, c ∈ cs ∧ memory_divergence pow t c <= max_mem ∧
       memory_divergence pow t c == 0.
Proof.
  induction cs as [|c cs IH]; intros b e.
  - cbn. split; [done|]. by intros (_ & c & ?%elem_of_nil & _).
  - cbn [fold_left].
    destruct (search_step pow t max_mem (Ok b) c) as [b1|e1] eqn:Hs.
    + rewrite IH. split; intros (-> & c' & Hc' & Hf & Hz); (split; [done|]).
      * exists c'. split; [by right|done].
      * apply elem_of_cons in Hc' as [->|Hc']; [|by exists c'].
        apply search_step_cases in Hs.
        destruct Hs as [[_ [?|[? _]]]|(_ & _ & ? & _)]; [lra|done..].
    + rewrite search_fold_Err.
      unfold search_step in Hs. cbn [mbind result_bind] in Hs.
      destruct (Qle_bool (memory_divergence pow t c) max_mem) eqn:Hf; [|done].
      unfold fdiv in Hs.
      destruct (Qeq_bool (memory_divergence pow t c) 0) eqn:Hz;
        [|cbn in Hs; by destruct (Qgt_bool _ _)].
      cbn in Hs. injection Hs as <-.
      apply Qle_bool_iff in Hf. apply Qeq_bool_iff in Hz.
      split; [intros [= <-]|by intros [-> _]].
      split; [done|]. exists c. split; [left|done].
Qed.

(** X25. [optimize_throughput] raises nothing but [ZeroDivisionError], and it
    raises exactly when the component's throughput is 0 or some grid sample
    under the memory ceiling needs no memory at all. *)
Theorem optimize_throughput_raises t :
  (∀ e, optimize_throughput pow t = Err e → e = ZeroDivisionError) ∧
  (optimize_throughput pow t = Err ZeroDivisionError ↔
   throughput_mbps (component t) == 0 ∨
   ∃ c, c ∈ grid ∧ memory_divergence pow t c <= max_memory_allowed t ∧
        memory_divergence pow t c == 0).
Proof.
  pose proof (search_raises t (max_memory_allowed t) grid (0, 0)) as Hr.
  unfold optimize_throughput.
  destruct (fold_left _ grid (Ok (0, 0))) as [[bc bt]|e0] eqn:Hfold.
  - cbn [mbind result_bind]. unfold fdiv.
    destruct (Qeq_bool (throughput_mbps (component t)) 0) eqn:Hz.
    + apply Qeq_bool_iff in Hz. cbn. split; [by intros e [= <-]|].
      split; [by left|done].
    + cbn. split; [done|]. split; [done|].
      intros [H|H].
      * apply Qeq_bool_iff in H. congruence.
      * assert (@Ok (Q * Q) (bc, bt) = Err ZeroDivisionError); [|done].
        by apply Hr.
  - cbn. pose proof (proj1 (Hr e0) eq_refl) as [-> Hc].
    split; [by intros e [= <-]|]. split; [by right|done].
Qed.

(** X26. when no grid sample is under the memory ceiling and the component
    has throughput, the zero optimum reports an improvement of -100 percent
    and the component's base memory as the memory used. *)
Theorem optimize_throughput_zero_report t :
  (∀ c, c ∈ grid → max_memory_allowed t < memory_divergence pow t c) →
  ¬ throughput_mbps (component t) == 0 →
  ∃ r, optimize_throughput pow t = Ok r ∧
       opt_optimal_contention r = 0 ∧ opt_optimized_throughput r = 0 ∧
       opt_improvement_percent r == -100 ∧
       opt_memory_used r == memory_gb (component t).
Proof.
  intros Hgrid Htp. eexists. split.
  - by apply optimize_throughput_infeasible.
  - cbn. split; [done|]. split; [done|]. split.
    + field. done.
    + unfold memory_divergence. cbn. field.
Qed.

End SearchMoreFacts.

Lemma optimize_throughput_feasible_witness :
  ∃ r, optimize_throughput pow_floor (default_throughput_optimizer CloudInference) = Ok r ∧
       opt_memory_max r = max_memory_allowed (default_throughput_optimizer CloudInference).
Proof.
  destruct (optimize_throughput pow_floor (default_throughput_optimizer CloudInference))
    as [r|e] eqn:Hr; [|by vm_compute in Hr].
  exists r. split; [done|].
  by apply (optimize_throughput_feasible pow_floor _ r Hr).
Defined.

Lemma optimize_throughput_maximal_witness :
  ∃ r, optimize_throughput pow_floor (default_throughput_optimizer CloudInference) = Ok r ∧
       (0 <= opt_optimized_throughput r)%Q.
Proof.
  destruct (optimize_throughput pow_floor (default_throughput_optimizer CloudInference))
    as [r|e] eqn:Hr; [|by vm_compute in Hr].
  exists r. split; [done|].
  by apply (optimize_throughput_maximal pow_floor _ r Hr).
Defined.

Lemma optimize_throughput_raises_witness :
  optimize_throughput pow_floor (default_throughput_optimizer Idle)
    = Err ZeroDivisionError.
Proof.
  apply (optimize_throughput_raises pow_floor (default_throughput_optimizer Idle)).
  left. reflexivity.
Defined.

Lemma optimize_throughput_zero_report_witness :
  ∃ r, optimize_throughput pow_floor (throughput_optimizer CloudInference 0.05 (-0.5)) = Ok r ∧
       (opt_improvement_percent r == -100)%Q.
Proof.
  destruct (optimize_throughput_zero_report pow_floor
              (throughput_optimizer CloudInference 0.05 (-0.5)))
    as (r & Hr & _ & _ & Himp & _).
  - intros c Hc. apply list_elem_of_In in Hc.
    assert (H : forallb (λ c, Qgt_bool
                (memory_divergence pow_floor
                   (throughput_optimizer CloudInference 0.05 (-0.5)) c)
                (max_memory_allowed (throughput_optimizer CloudInference 0.05 (-0.5))))
              grid = true) by (by vm_compute).
    rewrite forallb_forall in H. by apply DominanceFacts.Qgt_bool_true, H.
  - by vm_compute.
  - by exists r.
Defined.

(** ** The orchestrator *)

Module OrchestratorFacts.
Import Orchestrator.

Section RunFacts.
Variable pow : Q → Q → Q.
Variable fuel : nat.

Lemma find_name cs n :
  (∃ c, c ∈ cs ∧ name c = n) →
  ∃ c, find (λ c, String.eqb (name c) n) cs = Some c ∧ name c = n ∧ c ∈ cs.
Proof.
  induction cs as [|c0 cs IH]; intros (c & Hc & Hn).
  - by apply elem_of_nil in Hc.
  - cbn. destruct (String.eqb_spec (name c0) n) as [E|E].
    + exists c0. split; [done|]. split; [done|left].
    + apply elem_of_cons in Hc as [->|Hc]; [done|].
      destruct IH as (c' & Hf & Hn' & Hin); [by exists c|].
      exists c'. split; [done|]. split; [done|by right].
Qed.

Lemma named_once cs c1 c2 :
  NoDup (name <$> cs) → c1 ∈ cs → c2 ∈ cs → name c1 = name c2 → c1 = c2.
Proof.
  induction cs as [|c cs IH]; cbn; [by intros _ ?%elem_of_nil|].
  intros [Hc Hnd]%NoDup_cons [->|H1]%elem_of_cons [->|H2]%elem_of_cons Hn.
  - done.
  - destruct Hc. rewrite Hn. by apply list_elem_of_fmap_2.
  - destruct Hc. rewrite <-Hn. by apply list_elem_of_fmap_2.
  - by apply IH.
Qed.

Lemma run_after_dominance cs a dominant metrics :
  Dominance.init cs = Ok a →
  Dominance.identify_dominant_source fuel a = Ok (dominant, metrics) →
  ∃ dc, find (λ c, String.eqb (name c) dominant) cs = Some dc ∧
        name dc = dominant ∧ dc ∈ cs ∧
        run_full_optimization pow fuel (init cs) =
          match optimize_throughput pow (default_throughput_optimizer dc) with
          | Err e => (mk cs (results_d pow dominant metrics dc), Failed (Raised e))
          | Ok opt => (mk cs (results_e pow dominant metrics dc opt),
                       Returned (results_e pow dominant metrics dc opt))
          end.
Proof.
  intros Hinit Hid.
  destruct (DominanceMoreFacts.identify_returns _ _ _ _ Hid) as (dm & Hdm & Hsound).
  destruct (DominanceMoreFacts.metrics_of_sound _ _ _ _ (Hsound _ _ Hdm))
    as (c & Hc & _).
  assert (Hkey : dominant ∈ dict_keys (Dominance.registry cs)).
  { rewrite <-(DominanceMoreFacts.init_components cs a Hinit).
    apply dict_get_is_Some. by eexists. }
  destruct (find_name cs dominant (DominanceMoreFacts.registry_key_named _ _ Hkey))
    as (dc & Hfind & Hname & Hin).
  exists dc. do 3 (split; [done|]).
  unfold run_full_optimization. cbn [components init].
  rewrite Hinit, Hid, Hfind.
  destruct (optimize_throughput pow (default_throughput_optimizer dc)); reflexivity.
Qed.

Lemma validate_results_d cs dominant metrics dc :
  validate_assumption_chain (mk cs (results_d pow dominant metrics dc)) = true.
Proof.
  unfold validate_assumption_chain, results_d. cbn [results res_dominant_component
    res_consensus_scheme res_contention].
  destruct (ConsensusMoreFacts.run_keeps_configuration_aux ConsensusInv.demo_calls
              (Consensus.init dominant 2)) as (-> & _).
  cbn. by rewrite String.eqb_refl.
Qed.

Lemma validate_results_e cs dominant metrics dc opt :
  validate_assumption_chain (mk cs (results_e pow dominant metrics dc opt)) = true.
Proof. exact (validate_results_d cs dominant metrics dc). Qed.

(** X27. on a new orchestrator, [validate_assumption_chain] after a run is
    true exactly when the analyzer was built and named a dominant
    component, whether or not the later stages of the run raised; before
    any run it is false. *)
Theorem validate_after_run cs :
  validate_assumption_chain (init cs) = false ∧
  (validate_assumption_chain (run_full_optimization pow fuel (init cs)).1 = true ↔
   ∃ a r, Dominance.init cs = Ok a ∧
          Dominance.identify_dominant_source fuel a = Ok r).
Proof.
  split; [done|].
  destruct (Dominance.init cs) as [a|e] eqn:Hinit.
  - destruct (Dominance.identify_dominant_source fuel a) as [[dominant metrics]|e]
      eqn:Hid.
    + destruct (run_after_dominance cs a dominant metrics Hinit Hid)
        as (dc & _ & _ & _ & ->).
      split; [intros _; by eexists _, _|intros _].
      destruct (optimize_throughput pow _); cbn [fst].
      * apply validate_results_e.
      * apply validate_results_d.
    + unfold run_full_optimization. cbn [components init]. rewrite Hinit, Hid.
      split; [done|]. intros (a' & r & [= <-] & Hr). congruence.
  - unfold run_full_optimization. cbn [components init]. rewrite Hinit.
    split; [done|]. by intros (a' & r & ? & _).
Qed.

(** X28. a run that returns has written all six entries, returns what it
    stored, and the stored simulator targets the dominant component and has
    the test request accepted with two promises; the dominant component is
    one of the components given, and the contention is its
    requests_per_sec * latency_ms / 2000. *)
Theorem run_returns cs r :
  (run_full_optimization pow fuel (init cs)).2 = Returned r →
  results (run_full_optimization pow fuel (init cs)).1 = r ∧
  validate_assumption_chain (run_full_optimization pow fuel (init cs)).1 = true ∧
  ∃ dominant metrics consensus dc optimal_c opt,
    r = mkResults (Some dominant) (Some metrics) (Some consensus)
          (Some (inject_Z (requests_per_sec dc) * latency_ms dc / inject_Z 2000)%Q)
          (Some optimal_c) (Some opt) ∧
    dc ∈ cs ∧ name dc = dominant ∧
    Consensus.dominant_component consensus = dominant ∧
    Consensus.accepted_record consensus "req_001"
      = Some (Proposal.mk 1 (VDict [("payload"%string, VStr "test")]) 2 2) ∧
    optimize_throughput pow (default_throughput_optimizer dc) = Ok opt.
Proof.
  destruct (Dominance.init cs) as [a|e] eqn:Hinit;
    [|unfold run_full_optimization; cbn [components init]; by rewrite Hinit].
  destruct (Dominance.identify_dominant_source fuel a) as [[dominant metrics]|e]
    eqn:Hid;
    [|unfold run_full_optimization; cbn [components init]; by rewrite Hinit, Hid].
  destruct (run_after_dominance cs a dominant metrics Hinit Hid)
    as (dc & _ & Hname & Hin & ->).
  destruct (optimize_throughput pow (default_throughput_optimizer dc)) as [opt|e]
    eqn:Hopt; [|done].
  cbn [fst snd]. intros [= <-]. split; [done|].
  split; [apply validate_results_e|].
  eexists dominant, metrics, _, dc, _, opt. split; [reflexivity|].
  do 2 (split; [done|]). split; [|split; [reflexivity|done]].
  by destruct (ConsensusMoreFacts.run_keeps_configuration_aux ConsensusInv.demo_calls
                 (Consensus.init dominant 2)) as (-> & _).
Qed.

(** X29. with distinct component names and no negative throughput, a
    dominant component whose ratio is the infinite one has no throughput of
    its own, and the run ends in [ZeroDivisionError] in the throughput
    search: [optimize_throughput] on that component raises it, and the run
    stops with the entries of parts (a) to (d) written and the one of part
    (e) not.  [validate_assumption_chain] is true all the same. *)
Theorem run_raises_on_infinite_ratio cs a dominant metrics dm :
  NoDup (name <$> cs) →
  Dominance.init cs = Ok a →
  DominanceInv.nonnegative_throughput a →
  Dominance.identify_dominant_source fuel a = Ok (dominant, metrics) →
  (dominant, dm) ∈ metrics →
  Dominance.latency_throughput_ratio dm = PInf →
  ∃ dc,
    dc ∈ cs ∧ name dc = dominant ∧
    dict_get dominant (Dominance.components a) = Some dc ∧
    (throughput_mbps dc == 0)%Q ∧
    optimize_throughput pow (default_throughput_optimizer dc)
      = Err ZeroDivisionError ∧
    (run_full_optimization pow fuel (init cs)).2
      = Failed (Raised ZeroDivisionError) ∧
    results (run_full_optimization pow fuel (init cs)).1
      = mkResults (Some dominant) (Some metrics)
          (Some (Consensus.run (Consensus.init dominant 2)
                   ConsensusInv.demo_calls).2)
          (Some (inject_Z (requests_per_sec dc) * latency_ms dc
                 / inject_Z 2000)%Q)
          (Some (pow (1.5 / (0.2 * (1.5 - 1))) (1 / 1.5))%Q)
          None ∧
    validate_assumption_chain (run_full_optimization pow fuel (init cs)).1 = true.
Proof.
  intros Hnd Hinit Hnn Hid Hdm Hinf.
  destruct (run_after_dominance cs a dominant metrics Hinit Hid)
    as (dc & _ & Hname & Hin & ->).
  destruct (DominanceMoreFacts.identify_returns _ _ _ _ Hid) as (_ & _ & Hsound).
  destruct (DominanceMoreFacts.metrics_of_sound _ _ _ _ (Hsound _ _ Hdm))
    as (c & Hc & _ & Hdt & _ & Hratio).
  assert (Hle : (Dominance.downstream_throughput dm <= 0)%Q).
  { rewrite Hratio in Hinf. unfold DominanceInv.ratio_computed in Hinf.
    destruct (Qgt_bool (Dominance.downstream_throughput dm) 0) eqn:E; [done|].
    by apply DominanceFacts.Qgt_bool_false. }
  pose proof (DominanceMoreFacts.downstream_lower a fuel Hnn _ _ _ Hc Hdt) as Hlow.
  pose proof (Hnn _ _ Hc) as Hpos.
  assert (Hdc : dc = c).
  { rewrite (DominanceMoreFacts.init_components cs a Hinit) in Hc.
    unfold Dominance.registry in Hc.
    rewrite DominanceMoreFacts.registry_fold_distinct in Hc by done.
    apply dict_get_elem, list_elem_of_fmap in Hc as (c' & [= Hn ->] & Hc').
    apply (named_once cs); [done..|congruence]. }
  subst dc.
  assert (Hzero : (throughput_mbps c == 0)%Q) by lra.
  pose proof (optimize_throughput_zero_throughput pow
                (default_throughput_optimizer c) Hzero) as Hopt.
  rewrite Hopt. cbn [fst snd results].
  exists c. do 5 (split; [done|]). split; [done|].
  split; [reflexivity|apply validate_results_d].
Qed.

End RunFacts.
End OrchestratorFacts.

Lemma validate_after_run_witness :
  Orchestrator.validate_assumption_chain
    (Orchestrator.run_full_optimization pow_floor 6
       (Orchestrator.init reference_components)).1 = true.
Proof.
  apply (OrchestratorFacts.validate_after_run pow_floor 6 reference_components).
  eexists _, _. split; [apply DominanceExampleFacts.reference_init|].
  by vm_compute.
Defined.

Lemma run_returns_witness :
  Orchestrator.validate_assumption_chain
    (Orchestrator.run_full_optimization pow_floor 6
       (Orchestrator.init reference_components)).1 = true.
Proof.
  destruct (Orchestrator.run_full_optimization pow_floor 6
              (Orchestrator.init reference_components)).2 as [r|e] eqn:Hr;
    [|by vm_compute in Hr].
  by apply (OrchestratorFacts.run_returns pow_floor 6 reference_components r Hr).
Defined.

Lemma run_raises_on_infinite_ratio_witness :
  ∃ dc, name dc = "Idle"%string ∧ (throughput_mbps dc == 0)%Q ∧
        optimize_throughput pow_floor (default_throughput_optimizer dc)
          = Err ZeroDivisionError ∧
        (Orchestrator.run_full_optimization pow_floor 3
           (Orchestrator.init [DominanceInv.Feed; Idle])).2
        = Orchestrator.Failed (Orchestrator.Raised ZeroDivisionError).
Proof.
  destruct (OrchestratorFacts.run_raises_on_infinite_ratio pow_floor 3
           [DominanceInv.Feed; Idle]
           (DominanceExamples.analyzer_of [DominanceInv.Feed; Idle])
           "Idle"
           [("Feed"%string, Dominance.mkMetrics 1 1 100 (Finite 0.01));
            ("Idle"%string, Dominance.mkMetrics 10 10 0 PInf)]
           (Dominance.mkMetrics 10 10 0 PInf))
    as (dc & _ & Hname & _ & Hzero & Hopt & Hrun & _);
    [..|by exists dc].
  - apply (bool_decide_unpack _). by vm_compute.
  - by vm_compute.
  - intros n c Hc. by_cases_on_key Hc; try discriminate Hc;
      injection Hc as <-; by vm_compute.
  - by vm_compute.
  - right. left.
  - reflexivity.
Defined.
